(** * Project-Classifier: the matching-and-bucketing core

    A shallow embedding of [src/main3.0.py] (the range validator, the two
    bucketizers, the classify engine and the report engine) together with
    the part of Python's [difflib.SequenceMatcher] that the engines call:
    [SequenceMatcher(None, a, b).ratio()].

    Modelling conventions.
    - A Python [str] is a sequence of characters; the matcher is generic in
      the element type, exactly as [difflib] is generic in hashable
      elements.  The engines use Rocq [string]s.
    - Python dictionaries ([b2j], [j2len]) are [gmap]s.
    - A Python [float] score or size is an exact rational ([Q]); the scores
      are quotients of two small integers and every comparison made on them
      ([> 0.8], [> max_similarity], [== 1.0]) has the same outcome on the
      exact quotients.
    - The filesystem is an explicit tree threaded through the classify
      engine; an exception is an explicit [Raised] outcome.
    - A text of an entry field is the Rocq [string] of its UTF-8 bytes;
      [str.isdigit] and [int] read its code points, and the [ValueError]
      that [int] raises is [None]. *)

From Stdlib Require Import QArith DecimalString DecimalN DecimalPos.
From stdpp Require Import gmap strings list fin_maps sorting.

Local Close Scope Q_scope.
Local Open Scope nat_scope.

(** ** difflib.SequenceMatcher, as constructed by the source:
       [isjunk=None], [autojunk=True] *)

Module Difflib.

(** [Match(a, b, size)]: a named tuple, compared as a tuple. *)
Definition Match : Type := nat * nat * nat.

Definition match_size (m : Match) : nat := m.2.

Section SequenceMatcher.
Context `{Countable A}.
Implicit Types (a b : list A) (b2j : gmap A (list nat)).
Implicit Types (j2len : gmap nat nat) (best : Match).

(** [indices = b2j.setdefault(elt, []); indices.append(i)] *)
Definition setdefault_append b2j (ie : nat * A) : gmap A (list nat) :=
  <[ie.2 := default [] (b2j !! ie.2) ++ [ie.1]]> b2j.

(** The first loop of [__chain_b], over [enumerate(b)]. *)
Definition index_b b : gmap A (list nat) :=
  foldl setdefault_append ∅ (imap pair b).

(** [__chain_b].  With [isjunk=None] the junk set stays empty; with
    [autojunk=True] and [len(b) >= 200] every element occurring more than
    [len(b) // 100 + 1] times is popular and is deleted from [b2j]. *)
Definition popular (n : nat) (kv : A * list nat) : Prop :=
  n `div` 100 + 1 < length kv.2.

Global Instance popular_dec n kv : Decision (popular n kv).
Proof. unfold popular. apply _. Defined.

Definition chain_b b : gmap A (list nat) :=
  let b2j := index_b b in
  let n := length b in
  if decide (200 ≤ n) then filter (λ kv, ¬ popular n kv) b2j else b2j.

Definition isbjunk (x : A) : bool := false.

(** [j2len.get(j-1, 0)]: the key [-1] is never present. *)
Definition j2lenget j2len (j : nat) : nat :=
  match j with
  | 0 => 0
  | S j' => default 0 (j2len !! j')
  end.

(** The inner loop of [find_longest_match], over the indices [j] of the
    occurrences of [a[i]] in [b].  [i-k+1] is written [i+1-k]: [k] never
    exceeds [i+1]. *)
Fixpoint scan_row (i blo bhi : nat) j2len (idxs : list nat)
    (newj2len : gmap nat nat) best : gmap nat nat * Match :=
  match idxs with
  | [] => (newj2len, best)
  | j :: idxs' =>
      if decide (j < blo) then scan_row i blo bhi j2len idxs' newj2len best
      else if decide (bhi ≤ j) then (newj2len, best)
      else
        let k := j2lenget j2len j + 1 in
        scan_row i blo bhi j2len idxs' (<[j := k]> newj2len)
          (if decide (best.2 < k) then (i + 1 - k, j + 1 - k, k) else best)
  end.

(** [b2j.get(a[i], nothing)] *)
Definition b2j_get a b2j (i : nat) : list nat :=
  match a !! i with
  | Some x => default [] (b2j !! x)
  | None => []
  end.

(** The outer loop, [for i in range(alo, ahi)]. *)
Definition scan_step a b2j (blo bhi : nat) (st : gmap nat nat * Match)
    (i : nat) : gmap nat nat * Match :=
  scan_row i blo bhi st.1 (b2j_get a b2j i) ∅ st.2.

Definition scan a b2j (alo ahi blo bhi : nat) : gmap nat nat * Match :=
  foldl (scan_step a b2j blo bhi) (∅, (alo, blo, 0)) (seq alo (ahi - alo)).

(** [a[i] == b[j]], for indices inside the sequences. *)
Definition same_at a b (i j : nat) : bool :=
  match a !! i, b !! j with
  | Some x, Some y => bool_decide (x = y)
  | _, _ => false
  end.

Definition junk_at (want : bool) b (j : nat) : bool :=
  match b !! j with
  | Some y => bool_decide (isbjunk y = want)
  | None => false
  end.

(** [while besti > alo and bestj > blo and (not) isbjunk(b[bestj-1]) and
    a[besti-1] == b[bestj-1]: besti, bestj, bestsize = besti-1, bestj-1,
    bestsize+1].  [want] is [false] for the loops guarded by
    [not isbjunk(..)] and [true] for those guarded by [isbjunk(..)]. *)
Fixpoint extend_left (want : bool) a b (alo blo : nat)
    (besti bestj bestsize : nat) : Match :=
  match besti, bestj with
  | S i', S j' =>
      if bool_decide (alo < besti) && bool_decide (blo < bestj)
         && junk_at want b j' && same_at a b i' j'
      then extend_left want a b alo blo i' j' (S bestsize)
      else (besti, bestj, bestsize)
  | _, _ => (besti, bestj, bestsize)
  end.

(** [while besti+bestsize < ahi and bestj+bestsize < bhi and (not)
    isbjunk(b[bestj+bestsize]) and a[besti+bestsize] == b[bestj+bestsize]:
    bestsize += 1].  The loop runs at most [ahi - (besti+bestsize)] times,
    which is the [fuel] it is started with. *)
Fixpoint extend_right (want : bool) a b (ahi bhi : nat) (besti bestj : nat)
    (fuel : nat) (bestsize : nat) : nat :=
  match fuel with
  | 0 => bestsize
  | S fuel' =>
      if bool_decide (besti + bestsize < ahi)
         && bool_decide (bestj + bestsize < bhi)
         && junk_at want b (bestj + bestsize)
         && same_at a b (besti + bestsize) (bestj + bestsize)
      then extend_right want a b ahi bhi besti bestj fuel' (S bestsize)
      else bestsize
  end.

Definition extend (want : bool) a b (alo ahi blo bhi : nat) best : Match :=
  let '(besti, bestj, bestsize) :=
    extend_left want a b alo blo best.1.1 best.1.2 best.2 in
  (besti, bestj,
   extend_right want a b ahi bhi besti bestj (ahi - (besti + bestsize))
     bestsize).

(** [find_longest_match(alo, ahi, blo, bhi)] *)
Definition find_longest_match a b b2j (alo ahi blo bhi : nat) : Match :=
  let best := (scan a b2j alo ahi blo bhi).2 in
  let best := extend false a b alo ahi blo bhi best in
  extend true a b alo ahi blo bhi best.

(** One turn of the [while queue:] loop of [get_matching_blocks];
    [queue.pop()] takes the last element, here the head. *)
Definition Window : Type := nat * nat * nat * nat.

Definition process a b b2j (w : Window) : list Match * list Window :=
  let '(alo, ahi, blo, bhi) := w in
  let x := find_longest_match a b b2j alo ahi blo bhi in
  let '(i, j, k) := x in
  if decide (k = 0) then ([], [])
  else
    ([x],
     (if decide (i + k < ahi ∧ j + k < bhi)
      then [(i + k, ahi, j + k, bhi)] else [])
     ++ (if decide (alo < i ∧ blo < j) then [(alo, i, blo, j)] else [])).

Fixpoint blocks_loop a b b2j (fuel : nat) (queue : list Window)
    (matching_blocks : list Match) : option (list Match) :=
  match queue with
  | [] => Some matching_blocks
  | w :: queue' =>
      match fuel with
      | 0 => None
      | S fuel' =>
          let '(found, pushed) := process a b b2j w in
          blocks_loop a b b2j fuel' (pushed ++ queue')
            (matching_blocks ++ found)
      end
  end.

(** Tuples sort lexicographically. *)
Definition match_le (x y : Match) : Prop :=
  x.1.1 < y.1.1 ∨ (x.1.1 = y.1.1 ∧
    (x.1.2 < y.1.2 ∨ (x.1.2 = y.1.2 ∧ x.2 ≤ y.2))).

Global Instance match_le_dec x y : Decision (match_le x y).
Proof. unfold match_le. apply _. Defined.

(** The collapsing loop: [(i1, j1, k1)] is the block compared against. *)
Fixpoint collapse (cur : Match) (blocks non_adjacent : list Match)
    : list Match :=
  match blocks with
  | [] => if decide (cur.2 = 0) then non_adjacent else non_adjacent ++ [cur]
  | (i2, j2, k2) :: blocks' =>
      let '(i1, j1, k1) := cur in
      if decide (i1 + k1 = i2 ∧ j1 + k1 = j2)
      then collapse (i1, j1, k1 + k2) blocks' non_adjacent
      else collapse (i2, j2, k2) blocks'
             (if decide (k1 = 0) then non_adjacent
              else non_adjacent ++ [(i1, j1, k1)])
  end.

(** [get_matching_blocks]; [None] only if the loop is not given enough
    turns, which [matches_total] below excludes. *)
Definition get_matching_blocks a b : option (list Match) :=
  let la := length a in
  let lb := length b in
  blocks ← blocks_loop a b (chain_b b) (2 * la + 1) [(0, la, 0, lb)] [];
  Some (collapse (0, 0, 0) (merge_sort match_le blocks) [] ++ [(la, lb, 0)]).

(** [sum(triple[-1] for triple in ...)] *)
Definition sum_sizes (blocks : list Match) : nat :=
  foldr (λ m acc, match_size m + acc) 0 blocks.

(** [_calculate_ratio(matches, length)] *)
Definition calculate_ratio (matches length : nat) : Q :=
  if decide (length = 0) then 1%Q
  else (2 * inject_Z (Z.of_nat matches) / inject_Z (Z.of_nat length))%Q.

Definition matches a b : option nat :=
  sum_sizes <$> get_matching_blocks a b.

(** [SequenceMatcher(None, a, b).ratio()] *)
Definition ratio a b : option Q :=
  m ← matches a b; Some (calculate_ratio m (length a + length b)).

End SequenceMatcher.
(** *** Specification vocabulary for the matcher *)

Section MatcherSpec.
Context `{Countable A}.
Implicit Types (a b : list A) (b2j : gmap A (list nat)).

(** [idxs] lists, in increasing order, the positions of [x] in [b]. *)
Definition indexes_of b (x : A) (idxs : list nat) : Prop :=
  StronglySorted lt idxs ∧ ∀ j, j ∈ idxs ↔ b !! j = Some x.

(** Every list kept in [b2j] is the list of positions of its key. *)
Definition b2j_sound b b2j : Prop :=
  ∀ x idxs, b2j !! x = Some idxs → indexes_of b x idxs.

(** Nothing was purged from [b2j]. *)
Definition b2j_complete b b2j : Prop :=
  ∀ x, x ∈ b → is_Some (b2j !! x).

(** [b] has no popular element: it has fewer than 200 elements, or none
    of them occurs more than [len(b) // 100 + 1] times. *)
Definition occurrences (x : A) b : nat :=
  length (filter (λ y, y = x) b).

Definition no_popular b : Prop :=
  length b < 200 ∨ ∀ x, occurrences x b ≤ length b `div` 100 + 1.

(** [a[i]] and [b[j]] are the same element, indexed in [b2j], and both
    positions lie at or after the lower ends of the window. *)
Definition hit a b b2j (alo blo i j : nat) : bool :=
  bool_decide (alo ≤ i) && bool_decide (blo ≤ j) &&
  match a !! i, b !! j with
  | Some x, Some y => bool_decide (x = y) && bool_decide (is_Some (b2j !! x))
  | _, _ => false
  end.

(** The length of the longest run of hits that ends at [(i, j)]: the
    value the matcher stores in [j2len[j]] while it scans row [i]. *)
Fixpoint run a b b2j (alo blo i j : nat) {struct i} : nat :=
  if hit a b b2j alo blo i j then
    S (match i, j with
       | S i', S j' => run a b b2j alo blo i' j'
       | _, _ => 0
       end)
  else 0.

Definition prevrun a b b2j (alo blo i j : nat) : nat :=
  match i, j with
  | S i', S j' => run a b b2j alo blo i' j'
  | _, _ => 0
  end.

(** [a[i:i+k] == b[j:j+k]], a block inside the window. *)
Definition common_block a b (w : Window) (m : Match) : Prop :=
  let '(alo, ahi, blo, bhi) := w in
  let '(i, j, k) := m in
  alo ≤ i ∧ i + k ≤ ahi ∧ blo ≤ j ∧ j + k ≤ bhi ∧
  ∀ t, t < k → same_at a b (i + t) (j + t) = true.

(** The window lies inside the two sequences. *)
Definition window_ok a b (w : Window) : Prop :=
  let '(alo, ahi, blo, bhi) := w in
  alo ≤ ahi ∧ ahi ≤ length a ∧ blo ≤ bhi ∧ bhi ≤ length b.

(** The pairs [(i', j')] the scan has dealt with when it is in row [i]
    with the indices [todo] still to visit. *)
Definition processed (alo bhi i : nat) (todo : list nat) (i' j' : nat)
    : Prop :=
  alo ≤ i' ∧ j' < bhi ∧ (i' < i ∨ (i' = i ∧ Forall (lt j') todo)).

(** [best] is the first longest run among the pairs in [P], in the order
    the scan visits them. *)
Definition best_inv a b b2j (alo blo bhi : nat) (P : nat → nat → Prop)
    (best : Match) : Prop :=
  (∀ i' j', P i' j' → run a b b2j alo blo i' j' ≤ best.2) ∧
  (best = (alo, blo, 0) ∨
   ∃ i' j', P i' j' ∧ 0 < run a b b2j alo blo i' j' ∧
     best = (i' + 1 - run a b b2j alo blo i' j',
             j' + 1 - run a b b2j alo blo i' j',
             run a b b2j alo blo i' j') ∧
     ∀ i'' j'', alo ≤ i'' → j'' < bhi →
       i'' < i' ∨ (i'' = i' ∧ j'' < j') →
       run a b b2j alo blo i'' j'' < run a b b2j alo blo i' j').

(** [l[lo:hi]] *)
Definition slice (l : list A) (lo hi : nat) : list A :=
  take (hi - lo) (drop lo l).

(** The specification's alignment, in its own words: find the longest
    common contiguous substring of the two strings, apply the same
    procedure to the unmatched prefixes and to the unmatched suffixes,
    and add up the lengths of all the matched substrings. *)
Definition substring (m l : list A) : Prop :=
  ∃ l1 l2, l = l1 ++ m ++ l2.

Definition longest_common (m a b : list A) : Prop :=
  substring m a ∧ substring m b ∧
  ∀ m', substring m' a → substring m' b → length m' ≤ length m.

Inductive spec_alignment : list A → list A → nat → Prop :=
| align_none a b :
    (∀ x, x ∈ a → x ∉ b) → spec_alignment a b 0
| align_block a1 a2 b1 b2 m M1 M2 :
    m ≠ [] →
    longest_common m (a1 ++ m ++ a2) (b1 ++ m ++ b2) →
    spec_alignment a1 b1 M1 →
    spec_alignment a2 b2 M2 →
    spec_alignment (a1 ++ m ++ a2) (b1 ++ m ++ b2) (length m + M1 + M2).

(** The total the specification assigns to a window of the matcher. *)
Definition window_alignment a b (w : Window) (M : nat) : Prop :=
  let '(alo, ahi, blo, bhi) := w in
  spec_alignment (slice a alo ahi) (slice b blo bhi) M.

(** A total that fits in both sides of the window. *)
Definition window_bound (w : Window) (M : nat) : Prop :=
  let '(alo, ahi, blo, bhi) := w in
  M ≤ ahi - alo ∧ M ≤ bhi - blo.

(** The turns the queue loop needs for a window: at most one per
    element of the window on either side of a block, plus one. *)
Definition turns (w : Window) : nat :=
  let '(alo, ahi, blo, bhi) := w in 2 * (ahi - alo) + 1.

End MatcherSpec.
End Difflib.

(** ** The classes of [src/main3.0.py]

    A text is the Rocq [string] of its UTF-8 bytes.  Two texts are equal
    when their bytes are; the matcher is run on the bytes, which are the
    characters of a text in ASCII. *)

Definition chars (s : string) : list Ascii.ascii :=
  String.list_ascii_of_string s.

(** [SequenceMatcher(None, x, y).ratio()] on two strings.  The matcher
    always returns ([similarity_ratio] below), so the default is never
    used. *)
Definition similarity (x y : string) : Q :=
  default 0%Q (Difflib.ratio (chars x) (chars y)).

(** [x < y] and [x <= y] on scores and sizes. *)
Definition Qltb (x y : Q) : bool := negb (Qle_bool y x).
Definition Qleb (x y : Q) : bool := Qle_bool x y.

(** [max_num]: an [int], or [float("inf")]. *)
Inductive bound : Type :=
| Fin (n : Z)
| Inf.

(** A validated range, the tuple [(min_num, max_num, dir_name)]. *)
Definition range : Type := Z * bound * string.

Definition dir_name_of (r : range) : string := r.2.

(** [min_size <= size < max_size] *)
Definition in_range (r : range) (size : Q) : bool :=
  Qleb (inject_Z r.1.1) size &&
  match r.1.2 with
  | Fin max_size => Qltb size (inject_Z max_size)
  | Inf => true
  end.

(** ** Text as code points

    [str.isdigit] and [int] look at the code points of a text, so the
    range configurator decodes the UTF-8 bytes first.  A byte that is not
    part of a well-formed sequence stands for the lone surrogate that
    Python's [surrogateescape] gives it; no such code point is a digit. *)

Definition continuation (b : N) : bool := ((128 <=? b) && (b <? 192))%N.

Definition two_bytes (b0 b1 : N) : option N :=
  if ((194 <=? b0) && (b0 <? 224))%N && continuation b1
  then Some ((b0 - 192) * 64 + (b1 - 128))%N
  else None.

Definition three_bytes (b0 b1 b2 : N) : option N :=
  let c := ((b0 - 224) * 4096 + (b1 - 128) * 64 + (b2 - 128))%N in
  if ((224 <=? b0) && (b0 <? 240))%N && continuation b1 && continuation b2
     && (2048 <=? c)%N && negb ((55296 <=? c) && (c <? 57344))%N
  then Some c
  else None.

Definition four_bytes (b0 b1 b2 b3 : N) : option N :=
  let c := ((b0 - 240) * 262144 + (b1 - 128) * 4096 + (b2 - 128) * 64
            + (b3 - 128))%N in
  if ((240 <=? b0) && (b0 <? 245))%N && continuation b1 && continuation b2
     && continuation b3 && (65536 <=? c)%N && (c <? 1114112)%N
  then Some c
  else None.

(** The code point that stands for a byte outside a well-formed
    sequence. *)
Definition escape (b : N) : N := (56320 + b)%N.

Fixpoint utf8_decode (bytes : list N) : list N :=
  match bytes with
  | [] => []
  | b0 :: rest =>
      if (b0 <? 128)%N then b0 :: utf8_decode rest
      else
        match rest with
        | [] => escape b0 :: utf8_decode rest
        | b1 :: rest1 =>
            match two_bytes b0 b1 with
            | Some c => c :: utf8_decode rest1
            | None =>
                match rest1 with
                | [] => escape b0 :: utf8_decode rest
                | b2 :: rest2 =>
                    match three_bytes b0 b1 b2 with
                    | Some c => c :: utf8_decode rest2
                    | None =>
                        match rest2 with
                        | [] => escape b0 :: utf8_decode rest
                        | b3 :: rest3 =>
                            match four_bytes b0 b1 b2 b3 with
                            | Some c => c :: utf8_decode rest3
                            | None => escape b0 :: utf8_decode rest
                            end
                        end
                    end
                end
            end
        end
  end.

(** The code points of a text. *)
Definition code_points (s : string) : list N :=
  utf8_decode (Ascii.N_of_ascii <$> chars s).

Module RangeConfigurator.

(** The code points with the Unicode property [Numeric_Type=Digit] or
    [Numeric_Type=Decimal] (Unicode 14.0, the database of CPython 3.11),
    as inclusive ranges.  They include the superscripts and the circled
    digits, which are digits but not decimal digits. *)
Definition digit_ranges : list (N * N) :=
  [(48, 57); (178, 179); (185, 185); (1632, 1641); (1776, 1785);
   (1984, 1993); (2406, 2415); (2534, 2543); (2662, 2671); (2790, 2799);
   (2918, 2927); (3046, 3055); (3174, 3183); (3302, 3311); (3430, 3439);
   (3558, 3567); (3664, 3673); (3792, 3801); (3872, 3881); (4160, 4169);
   (4240, 4249); (4969, 4977); (6112, 6121); (6160, 6169); (6470, 6479);
   (6608, 6618); (6784, 6793); (6800, 6809); (6992, 7001); (7088, 7097);
   (7232, 7241); (7248, 7257); (8304, 8304); (8308, 8313); (8320, 8329);
   (9312, 9320); (9332, 9340); (9352, 9360); (9450, 9450); (9461, 9469);
   (9471, 9471); (10102, 10110); (10112, 10120); (10122, 10130);
   (42528, 42537); (43216, 43225); (43264, 43273); (43472, 43481);
   (43504, 43513); (43600, 43609); (44016, 44025); (65296, 65305);
   (66720, 66729); (68160, 68163); (68912, 68921); (69216, 69224);
   (69714, 69722); (69734, 69743); (69872, 69881); (69942, 69951);
   (70096, 70105); (70384, 70393); (70736, 70745); (70864, 70873);
   (71248, 71257); (71360, 71369); (71472, 71481); (71904, 71913);
   (72016, 72025); (72784, 72793); (73040, 73049); (73120, 73129);
   (92768, 92777); (92864, 92873); (93008, 93017); (120782, 120831);
   (123200, 123209); (123632, 123641); (125264, 125273); (127232, 127242);
   (130032, 130041)]%N.

(** The code points of the zeros of the decimal digits
    ([Numeric_Type=Decimal]); the nine code points after each are its
    digits 1 to 9. *)
Definition decimal_zeros : list N :=
  [48; 1632; 1776; 1984; 2406; 2534; 2662; 2790; 2918; 3046; 3174; 3302;
   3430; 3558; 3664; 3792; 3872; 4160; 4240; 6112; 6160; 6470; 6608; 6784;
   6800; 6992; 7088; 7232; 7248; 42528; 43216; 43264; 43472; 43504; 43600;
   44016; 65296; 66720; 68912; 69734; 69872; 69942; 70096; 70384; 70736;
   70864; 71248; 71360; 71472; 71904; 72016; 72784; 73040; 73120; 92768;
   92864; 93008; 120782; 120792; 120802; 120812; 120822; 123200; 123632;
   125264; 130032]%N.

(** [Py_UNICODE_ISDIGIT] *)
Definition is_digit (c : N) : bool :=
  existsb (λ r : N * N, (r.1 <=? c) && (c <=? r.2))%N digit_ranges.

(** [Py_UNICODE_TODECIMAL]: the value of a decimal digit, [None] for
    any other character. *)
Definition to_decimal (c : N) : option N :=
  (λ zero, c - zero)%N
    <$> List.find (λ zero, (zero <=? c) && (c <? zero + 10))%N decimal_zeros.

(** [s.isdigit()]: there is a character and every character is a
    digit. *)
Definition isdigit (s : string) : bool :=
  negb (bool_decide (code_points s = [])) && forallb is_digit (code_points s).

(** [sys.get_int_max_str_digits()] as the interpreter starts
    (CPython 3.11): the most digits that [int] converts. *)
Definition int_max_str_digits : nat := 4300.

(** The number written with the decimal digits [cps]; [None] if one of
    them is no decimal digit. *)
Definition digits_value (cps : list N) : option Z :=
  foldl (λ acc c,
           n ← acc; d ← to_decimal c; Some (10 * n + Z.of_N d)%Z)
    (Some 0%Z) cps.

(** [int(s)] for a text that [isdigit] accepts, the only texts
    [get_ranges] passes to it: the number that its decimal digits
    write, or [None], the [ValueError] that [int] raises when a
    character is no decimal digit or when there are more digits than
    [int_max_str_digits]. *)
Definition int (s : string) : option Z :=
  let cps := code_points s in
  if bool_decide (cps = []) then None
  else if bool_decide (int_max_str_digits < length cps) then None
  else digits_value cps.

(** The messages appended to [errors]:
    - [MinNotDigit min_val]: the minimum must be a number, [{min_val}];
    - [MaxNotDigit max_val]: the maximum must be a number or 'inf',
      [{max_val}];
    - [EmptyDirName]: the folder name must not be empty;
    - [BadRange min_num max_num]: wrong range,
      [{min_num} >= {max_num}]. *)
Inductive message : Type :=
| MinNotDigit (min_val : string)
| MaxNotDigit (max_val : string)
| EmptyDirName
| BadRange (min_num : Z) (max_num : bound).

(** [min_num >= max_num]; no integer reaches [float("inf")]. *)
Definition ge_bound (min_num : Z) (max_num : bound) : bool :=
  match max_num with
  | Fin n => bool_decide (n ≤ min_num)%Z
  | Inf => false
  end.

(** One turn of the loop of [get_ranges] over [self.entries], the texts
    [(min_val, max_val, dir_name)] of one row of entry fields.  [None]
    is the [ValueError] of [int(min_val)] or [int(max_val)]: nothing
    catches it in [get_ranges], so it ends the loop and the call. *)
Definition get_ranges_step (st : list range * list message)
    (entry : string * string * string)
    : option (list range * list message) :=
  let '(ranges, errors) := st in
  let '(min_val, max_val, dir_name) := entry in
  if negb (isdigit min_val) then
    Some (ranges, errors ++ [MinNotDigit min_val])
  else if negb (bool_decide (max_val = "inf")) && negb (isdigit max_val) then
    Some (ranges, errors ++ [MaxNotDigit max_val])
  else if bool_decide (dir_name = EmptyString) then
    Some (ranges, errors ++ [EmptyDirName])
  else
    min_num ← int min_val;
    max_num ← (if bool_decide (max_val = "inf") then Some Inf
               else Fin <$> int max_val);
    if ge_bound min_num max_num then
      Some (ranges, errors ++ [BadRange min_num max_num])
    else
      Some (ranges ++ [(min_num, max_num, dir_name)], errors).

Fixpoint get_ranges_loop (entries : list (string * string * string))
    (st : list range * list message)
    : option (list range * list message) :=
  match entries with
  | [] => Some st
  | entry :: entries' =>
      st' ← get_ranges_step st entry; get_ranges_loop entries' st'
  end.

(** [get_ranges]: the pair [(ranges, errors)] it returns, or [None] when
    a [ValueError] leaves it. *)
Definition get_ranges (entries : list (string * string * string))
    : option (list range * list message) :=
  get_ranges_loop entries ([], []).

End RangeConfigurator.

(** The base directory: the entries of [os.listdir(base_dir)] in the
    order the system lists them, each a plain file or a directory with its
    own entries.  A path [os.path.join(base_dir, name)] is identified with
    [name]. *)
Inductive node : Type :=
| File
| Dir (children : list (string * node)).

Abbreviation listing := (list (string * node)).

(** [os.path.isdir] *)
Definition isdir (n : node) : bool :=
  match n with
  | File => false
  | Dir _ => true
  end.

Fixpoint lookup_entry (name : string) (fs : listing) : option node :=
  match fs with
  | [] => None
  | (name', n) :: rest =>
      if bool_decide (name' = name) then Some n else lookup_entry name rest
  end.

Fixpoint remove_entry (name : string) (fs : listing) : listing :=
  match fs with
  | [] => []
  | (name', n) :: rest =>
      if bool_decide (name' = name) then rest
      else (name', n) :: remove_entry name rest
  end.

(** Add an entry to the directory [dir]. *)
Fixpoint add_child (dir : string) (child : string * node) (fs : listing)
    : listing :=
  match fs with
  | [] => []
  | (name', n) :: rest =>
      if bool_decide (name' = dir) then
        match n with
        | Dir children => (name', Dir (children ++ [child])) :: rest
        | File => (name', n) :: rest
        end
      else (name', n) :: add_child dir child rest
  end.

Inductive exn : Type :=
| FileExistsError (path : string)
| DestinationExists (dst name : string).

(** A name of one entry of a directory: [os.path.join(base_dir, name)]
    is then the entry [name] of [base_dir].  It is not empty, not ["."] or
    [".."], and has no separator, drive colon or NUL. *)
Definition plain_name (name : string) : Prop :=
  name ≠ "" ∧ name ≠ "." ∧ name ≠ ".." ∧
  Forall (λ c, (c ∉ chars "/\:") ∧ c ≠ Ascii.zero) (chars name).

Global Instance plain_name_dec name : Decision (plain_name name).
Proof. unfold plain_name. apply _. Defined.

(** [os.makedirs(target_dir, exist_ok=True)], for a [target_dir] that is
    [os.path.join(base_dir, name)] with a [plain_name]: the target is an
    entry of the base directory.  A label with path syntax (["a/b"],
    [".."], an absolute path) names a directory elsewhere, which this
    tree does not hold. *)
Definition makedirs (fs : listing) (target_dir : string) : listing + exn :=
  match lookup_entry target_dir fs with
  | None => inl (fs ++ [(target_dir, Dir [])])
  | Some (Dir _) => inl fs
  | Some File => inr (FileExistsError target_dir)
  end.

(** [shutil.move(folder_path, target_dir)] for two entries of the base
    directory (both paths are [os.path.join(base_dir, name)] with a
    [plain_name]), [target_dir] being a directory:
    moving a directory onto itself is a rename to the same name; an entry
    of the same name inside the target raises [shutil.Error].  [run] calls
    it with a folder it has just found and a target that [makedirs] has
    just made sure of, so the last case does not arise there. *)
Definition move (fs : listing) (folder_path target_dir : string)
    : listing + exn :=
  if bool_decide (folder_path = target_dir) then inl fs
  else
    match lookup_entry folder_path fs, lookup_entry target_dir fs with
    | Some n, Some (Dir children) =>
        match lookup_entry folder_path children with
        | Some _ => inr (DestinationExists target_dir folder_path)
        | None =>
            inl (add_child target_dir (folder_path, n)
                   (remove_entry folder_path fs))
        end
    | _, _ => inl fs
    end.

Module FileClassifier.

(** [_find_project_folder] *)
Fixpoint find_project_folder (base_dir : listing) (project_name : string)
    : option string :=
  match base_dir with
  | [] => None
  | (folder, n) :: rest =>
      if isdir n then
        if Qltb (8 # 10) (similarity project_name folder) then Some folder
        else find_project_folder rest project_name
      else find_project_folder rest project_name
  end.

(** [_get_target_dir] *)
Fixpoint get_target_dir (ranges : list range) (project_size : Q)
    : option string :=
  match ranges with
  | [] => None
  | r :: ranges' =>
      if in_range r project_size then Some (dir_name_of r)
      else get_target_dir ranges' project_size
  end.

(** How a run ends: normally, or with an exception that nothing in
    [run] catches; either way with the base directory as it then is. *)
Inductive outcome : Type :=
| Done (fs : listing)
| Raised (e : exn) (fs : listing).

(** The body of the loop of [run] for one row: [project_name] is
    [str(row[0])] and the second component is [float(row[1])], [None]
    when it raises [ValueError] or [IndexError]. *)
Definition run_row (ranges : list range) (fs : listing)
    (row : string * option Q) : outcome :=
  let '(project_name, cell) := row in
  match cell with
  | None => Done fs
  | Some project_size =>
      match find_project_folder fs project_name with
      | Some folder_path =>
          match get_target_dir ranges project_size with
          | Some target_dir =>
              match makedirs fs target_dir with
              | inl fs' =>
                  match move fs' folder_path target_dir with
                  | inl fs'' => Done fs''
                  | inr e => Raised e fs'
                  end
              | inr e => Raised e fs
              end
          | None => Done fs
          end
      | None => Done fs
      end
  end.

(** [run], over the rows of the spreadsheet. *)
Fixpoint run (ranges : list range) (fs : listing)
    (rows : list (string * option Q)) : outcome :=
  match rows with
  | [] => Done fs
  | row :: rows' =>
      match run_row ranges fs row with
      | Done fs' => run ranges fs' rows'
      | Raised e fs' => Raised e fs'
      end
  end.

End FileClassifier.

Module ReportGenerator.

(** An element of [projects]: [{"name": .., "size": ..}]. *)
Record project : Type := Project {
  name : string;
  size : option Q;
}.

(** A row of [report_data]. *)
Record report_row : Type := ReportRow {
  folder_name : string;
  matched_project : string;
  score : Q;
  project_size : option Q;
  target_category : string;
  actual_location : string;
}.

Definition unclassified : string := "未分类".

(** [_get_target_dir] *)
Fixpoint get_target_dir (ranges : list range) (size : Q) : string :=
  match ranges with
  | [] => unclassified
  | r :: ranges' =>
      if in_range r size then dir_name_of r
      else get_target_dir ranges' size
  end.

(** The loop of [_find_best_match]. *)
Fixpoint best_match_loop (folder_name : string) (projects : list project)
    (best_match : option project) (max_similarity : Q)
    : option project * Q :=
  match projects with
  | [] => (best_match, max_similarity)
  | project :: projects' =>
      match size project with
      | None => best_match_loop folder_name projects' best_match
                  max_similarity
      | Some _ =>
          let similarity := similarity folder_name (name project) in
          if Qltb max_similarity similarity
          then best_match_loop folder_name projects' (Some project)
                 similarity
          else best_match_loop folder_name projects' best_match
                 max_similarity
      end
  end.

(** [_find_best_match] *)
Definition find_best_match (folder_name : string) (projects : list project)
    : option project * Q :=
  best_match_loop folder_name projects None 0%Q.

(** The rows appended for one folder: [if best_match: report_data.append
    (...)].  A best match always has a size ([find_best_match_spec] below),
    so the category is computed from it. *)
Definition report_folder (ranges : list range) (projects : list project)
    (entry location : string) : list report_row :=
  match find_best_match entry projects with
  | (Some best_match, similarity) =>
      [ReportRow entry (name best_match) similarity (size best_match)
         (from_option (get_target_dir ranges) unclassified (size best_match))
         location]
  | (None, _) => []
  end.

(** The inner loop of [generate], over the entries of a range
    directory. *)
Fixpoint report_sub_entries (ranges : list range) (projects : list project)
    (entry : string) (sub_entries : listing) : list report_row :=
  match sub_entries with
  | [] => []
  | (sub_entry, n) :: rest =>
      (if isdir n then report_folder ranges projects sub_entry entry
       else [])
      ++ report_sub_entries ranges projects entry rest
  end.

(** The loop of [generate] that fills [report_data]; [base_name] is
    [os.path.basename(self.base_dir)]. *)
Fixpoint generate (ranges : list range) (projects : list project)
    (base_name : string) (base_dir : listing) : list report_row :=
  match base_dir with
  | [] => []
  | (entry, n) :: rest =>
      match n with
      | File => generate ranges projects base_name rest
      | Dir sub_entries =>
          (if bool_decide (entry ∈ map dir_name_of ranges)
           then report_sub_entries ranges projects entry sub_entries
           else report_folder ranges projects entry base_name)
          ++ generate ranges projects base_name rest
      end
  end.

(** The specification's folders to report, with their locations: the
    top-level directories that are not range directories, and the
    directories one level inside the range directories. *)
Definition folders_to_report (ranges : list range) (base_name : string)
    (base_dir : listing) : list (string * string) :=
  flat_map (λ en : string * node,
    match en.2 with
    | File => []
    | Dir sub_entries =>
        if bool_decide (en.1 ∈ map dir_name_of ranges)
        then (λ sub : string * node, (sub.1, en.1))
               <$> filter (λ sub : string * node, isdir sub.2 = true)
                     sub_entries
        else [(en.1, base_name)]
    end) base_dir.

End ReportGenerator.

(** ** Specification vocabulary for the engines *)

(** The range validator in the words of the specification: the numbers
    are non-negative integer literals, read in base ten. *)
Module RangeValidator.
Import RangeConfigurator.

Definition literal_digit (c : Ascii.ascii) : bool :=
  (48 <=? Ascii.nat_of_ascii c) && (Ascii.nat_of_ascii c <=? 57).

(** A non-negative integer literal: one or more of the characters
    ["0"] to ["9"]. *)
Definition literal (s : string) : bool :=
  negb (bool_decide (s = EmptyString)) && forallb literal_digit (chars s).

(** The number a literal stands for. *)
Definition value (s : string) : Z :=
  foldl (λ acc c, 10 * acc + (Z.of_nat (Ascii.nat_of_ascii c) - 48))%Z
    0%Z (chars s).

Definition max_ok (max_val : string) : bool :=
  bool_decide (max_val = "inf") || literal max_val.

Definition parse_max (max_val : string) : bound :=
  if bool_decide (max_val = "inf") then Inf else Fin (value max_val).

(** The range a triple of texts stands for. *)
Definition parse (entry : string * string * string) : range :=
  let '(min_val, max_val, dir_name) := entry in
  (value min_val, parse_max max_val, dir_name).

(** Every check a triple violates, in the order of the checks: the
    minimum is a non-negative integer literal, the maximum is ["inf"] or
    a non-negative integer literal, the label is not empty and, once
    both numbers are read, the minimum is below the maximum. *)
Definition violations (entry : string * string * string) : list message :=
  let '(min_val, max_val, dir_name) := entry in
  (if literal min_val then [] else [MinNotDigit min_val])
  ++ (if max_ok max_val then [] else [MaxNotDigit max_val])
  ++ (if bool_decide (dir_name = EmptyString) then [EmptyDirName] else [])
  ++ (if literal min_val && max_ok max_val
         && ge_bound (value min_val) (parse_max max_val)
      then [BadRange (value min_val) (parse_max max_val)] else []).

Definition valid (entry : string * string * string) : Prop :=
  violations entry = [].

Global Instance valid_dec entry : Decision (valid entry).
Proof. unfold valid. apply _. Defined.

(** What one triple contributes, whatever the other triples are: its
    range if it violates nothing, else the message of the first check
    it violates. *)
Definition ranges_of (entry : string * string * string) : list range :=
  match violations entry with
  | [] => [parse entry]
  | _ :: _ => []
  end.

Definition errors_of (entry : string * string * string) : list message :=
  take 1 (violations entry).

(** The texts that the code and the specification read alike: if
    [isdigit] accepts the text, it is a literal, of no more digits than
    [int] converts. *)
Definition readable (s : string) : Prop :=
  isdigit s = true →
  literal s = true ∧ length (chars s) ≤ int_max_str_digits.

Definition readable_entry (entry : string * string * string) : Prop :=
  readable entry.1.1 ∧ readable entry.1.2.

Global Instance readable_entry_dec entry : Decision (readable_entry entry).
Proof. unfold readable_entry, readable. apply _. Defined.

End RangeValidator.

(** The entry is a directory whose name scores above 0.8 against the
    name of the record. *)
Definition over_threshold (project_name : string) (en : string * node)
    : Prop :=
  isdir en.2 = true ∧ (8 # 10 < similarity project_name en.1)%Q.

(** The projects of the match pool: those whose size is not [None]. *)
Definition sized (p : ReportGenerator.project) : Prop :=
  is_Some (ReportGenerator.size p).

(** [p] is the best match of the specification for a folder: the first
    project of the pool with the greatest score, that score being
    positive. *)
Definition first_best (folder_name : string)
    (projects : list ReportGenerator.project) (p : ReportGenerator.project)
    : Prop :=
  ∃ pre post,
    projects = pre ++ p :: post ∧ sized p ∧
    (0 < similarity folder_name (ReportGenerator.name p))%Q ∧
    (∀ q, q ∈ pre → sized q →
       (similarity folder_name (ReportGenerator.name q)
        < similarity folder_name (ReportGenerator.name p))%Q) ∧
    (∀ q, q ∈ post → sized q →
       (similarity folder_name (ReportGenerator.name q)
        <= similarity folder_name (ReportGenerator.name p))%Q).

(** ** Concrete inputs *)

(** A name of 200 characters in which both characters are popular. *)
Definition popular_name : string := String.concat "" (replicate 100 "ab").

Definition two_ranges : list range :=
  [(0%Z, Fin 500, "Small"); (500%Z, Inf, "Big")].

(** A base directory in which ["Small"] already holds a folder named like
    one that is still outside it. *)
Definition clash_dir : listing :=
  [("Beta Project", Dir []);
   ("Alpha Project", Dir [("notes", File)]);
   ("Small", Dir [("Alpha Project", Dir [])])].

(** [clash_dir] once ["Beta Project"] has been moved. *)
Definition clash_dir_moved : listing :=
  [("Alpha Project", Dir [("notes", File)]);
   ("Small", Dir [("Alpha Project", Dir []); ("Beta Project", Dir [])])].

(** ** Further vocabulary *)

Section MatcherWindows.
Context `{Countable A}.

(** A total that fills both sides of a window only if the two sides are
    the same list. *)
Definition window_full (a b : list A) (w : Difflib.Window) (M : nat) : Prop :=
  let '(alo, ahi, blo, bhi) := w in
  M ≤ ahi - alo ∧ M ≤ bhi - blo ∧
  (M = ahi - alo → M = bhi - blo →
   Difflib.slice a alo ahi = Difflib.slice b blo bhi).

(** A total that is positive only if the two sequences share an element. *)
Definition window_shared (a b : list A) (w : Difflib.Window) (M : nat)
    : Prop :=
  M = 0 ∨ ∃ x, x ∈ a ∧ x ∈ b.

End MatcherWindows.

(** *** The entry fields of the range configurator *)

(** The invariant of a range: a non-negative minimum below the maximum,
    and a folder name. *)
Definition well_formed (r : range) : Prop :=
  (0 ≤ r.1.1)%Z ∧
  match r.1.2 with
  | Fin n => (r.1.1 < n)%Z
  | Inf => True
  end ∧
  r.2 ≠ "".

(** [str(n)] for an [int] that is printed (its digits are within the
    interpreter's limit for conversions): the decimal digits, after a
    minus sign for a negative number. *)
Definition str_of_int (n : Z) : string :=
  NilZero.string_of_int (Z.to_int n).

(** [str(max_val)]; [str(float("inf"))] is ["inf"]. *)
Definition str_of_bound (m : bound) : string :=
  match m with
  | Fin n => str_of_int n
  | Inf => "inf"
  end.

Definition DEFAULT_RANGES : list range :=
  [(0%Z, Fin 500, "500万以内项目");
   (500%Z, Fin 10000, "500万-1亿元项目");
   (10000%Z, Fin 50000, "1-5亿元项目");
   (50000%Z, Fin 1000000, "5-100亿元项目")].

(** The texts of the three [StringVar]s that [create_widgets] makes for
    one row of the table: [str(min_val)], [str(max_val)], [dir_name]. *)
Definition entry_of (r : range) : string * string * string :=
  (str_of_int r.1.1, str_of_bound r.1.2, r.2).

(** A range whose numbers [int] reads back from what [str] prints: the
    texts have no more digits than [int] converts. *)
Definition printable (r : range) : Prop :=
  length (chars (str_of_int r.1.1)) ≤ RangeConfigurator.int_max_str_digits ∧
  match r.1.2 with
  | Fin n =>
      length (chars (str_of_int n)) ≤ RangeConfigurator.int_max_str_digits
  | Inf => True
  end.

Global Instance printable_dec r : Decision (printable r).
Proof. unfold printable. destruct r as [[? []] ?]; apply _. Defined.

(** [self.entries] after [create_widgets]. *)
Definition create_widgets : list (string * string * string) :=
  entry_of <$> DEFAULT_RANGES.

(** *** The base directory over a run *)

(** The base directory a run ends with, normally or not. *)
Definition final_fs (o : FileClassifier.outcome) : listing :=
  match o with
  | FileClassifier.Done fs => fs
  | FileClassifier.Raised _ fs => fs
  end.

(** Counting the tree of entries, [file] for each plain file and [dir]
    for each directory: [weight 1 0] is the number of files and
    [weight 0 1] the number of directories under the base directory. *)
Fixpoint node_weight (file dir : nat) (n : node) : nat :=
  match n with
  | File => file
  | Dir children =>
      dir + foldr (λ (child : string * node) acc,
                     (let '(_, n') := child in node_weight file dir n') + acc)
              0 children
  end.

Definition weight (file dir : nat) (fs : listing) : nat :=
  foldr (λ (en : string * node) acc, node_weight file dir en.2 + acc) 0 fs.

(** What one row can do to the base directory. *)
Definition row_keeps (ranges : list range) (fs fs' : listing) : Prop :=
  (NoDup fs.*1 → NoDup fs'.*1) ∧
  (∀ name, name ∈ fs'.*1 → name ∈ fs.*1 ∨ name ∈ map dir_name_of ranges) ∧
  (NoDup fs.*1 → ∀ name,
     lookup_entry name fs = Some File → lookup_entry name fs' = Some File).

(** *** The rows of a report *)

(** What every row of a report satisfies: it names a project of the pool
    that has a size, with the positive score of that project, a category
    that is a label of the ranges or the label for unclassified, and a
    location that is the name of the base directory or a label. *)
Definition row_ok (ranges : list range)
    (projects : list ReportGenerator.project) (base_name : string)
    (row : ReportGenerator.report_row) : Prop :=
  (∃ p, p ∈ projects ∧ sized p ∧
        ReportGenerator.matched_project row = ReportGenerator.name p ∧
        ReportGenerator.project_size row = ReportGenerator.size p ∧
        ReportGenerator.score row
        = similarity (ReportGenerator.folder_name row)
            (ReportGenerator.name p)) ∧
  (0 < ReportGenerator.score row)%Q ∧ (ReportGenerator.score row <= 1)%Q ∧
  (ReportGenerator.target_category row ∈ map dir_name_of ranges
   ∨ ReportGenerator.target_category row = ReportGenerator.unclassified) ∧
  (ReportGenerator.actual_location row = base_name
   ∨ ReportGenerator.actual_location row ∈ map dir_name_of ranges).

(** *** The command behind the classify button *)

Module FileClassifierApp.

(** The exceptions that reach the [except Exception] of
    [classify_files]: the two of [_validate_paths], the [ValueError] of a
    spreadsheet that cannot be read, and those of the moves. *)
Inductive run_error : Type :=
| FileNotFoundError
| NotADirectoryError
| ReadError
| MoveError (e : exn).

(** How [classify_files] ends: with one of its four message boxes, or
    with none ([Uncaught]) when the [ValueError] of [get_ranges] leaves
    it; [get_validated_ranges] is called before the [try]. *)
Inductive dialog : Type :=
| NoExcelFile
| InputError (errors : list RangeConfigurator.message)
| RunError (e : run_error)
| Finished
| Uncaught.

(** What [classify_files] reads and writes outside the window: whether
    [excel_path] is a file, the directory [os.path.dirname(excel_path)]
    ([None] when it is not a directory), the rows of the spreadsheet
    ([None] when [pd.read_excel] raises), the content of the
    configuration file and whether it can be written. *)
Record world : Type := World {
  excel_is_file : bool;
  base_dir : option listing;
  sheet : option (list (string * option Q));
  config : option (string * list range);
  config_writable : bool;
}.

(** [AppConfig.save]: a failure is printed and otherwise ignored. *)
Definition save (w : world) (excel_path : string) (ranges : list range)
    : world :=
  if config_writable w
  then World (excel_is_file w) (base_dir w) (sheet w)
         (Some (excel_path, ranges)) (config_writable w)
  else w.

Definition with_base_dir (w : world) (fs : listing) : world :=
  World (excel_is_file w) (Some fs) (sheet w) (config w) (config_writable w).

(** [classify_files], with the path and the texts of the entry fields. *)
Definition classify_files (excel_path : string)
    (entries : list (string * string * string)) (w : world)
    : dialog * world :=
  if bool_decide (excel_path = "") then (NoExcelFile, w)
  else
    match RangeConfigurator.get_ranges entries with
    | None => (Uncaught, w)
    | Some (ranges, (_ :: _) as errors) => (InputError errors, w)
    | Some (ranges, []) =>
        if negb (excel_is_file w) then (RunError FileNotFoundError, w)
        else
          match base_dir w with
          | None => (RunError NotADirectoryError, w)
          | Some fs =>
              match sheet w with
              | None => (RunError ReadError, w)
              | Some rows =>
                  match FileClassifier.run ranges fs rows with
                  | FileClassifier.Done fs' =>
                      (Finished, save (with_base_dir w fs') excel_path ranges)
                  | FileClassifier.Raised e fs' =>
                      (RunError (MoveError e), with_base_dir w fs')
                  end
              end
          end
    end.

End FileClassifierApp.

(** * Facts about the matcher *)

Section chain_b_facts.
Context `{Countable A}.
Import Difflib.
Implicit Types (a b : list A) (b2j : gmap A (list nat)).

Lemma imap_pair_snoc b (y : A) :
  imap pair (b ++ [y]) = imap pair b ++ [(length b, y)].
Proof. rewrite imap_app. simpl. by rewrite Nat.add_0_r. Qed.

Lemma index_b_snoc b y :
  index_b (b ++ [y]) = setdefault_append (index_b b) (length b, y).
Proof. unfold index_b. by rewrite imap_pair_snoc, foldl_app. Qed.

Lemma indexes_of_absent b x : x ∉ b → indexes_of b x [].
Proof.
  intros Hx. split; [constructor|]. intros j. split.
  - by intros ?%elem_of_nil.
  - intros Hj. destruct Hx. by eapply list_elem_of_lookup_2.
Qed.

Lemma indexes_of_snoc_eq b x idxs :
  indexes_of b x idxs → indexes_of (b ++ [x]) x (idxs ++ [length b]).
Proof.
  intros [Hs Hm]. split.
  - apply StronglySorted_app_2; [|done|repeat constructor].
    intros j1 j2 Hj1%Hm%lookup_lt_Some Hj2%list_elem_of_singleton. lia.
  - intros j. rewrite elem_of_app, list_elem_of_singleton, Hm.
    rewrite lookup_snoc_Some. split.
    + intros [Hj| ->]; [left|by right].
      split; [by eapply lookup_lt_Some|done].
    + intros [[_ Hj]|[-> _]]; [by left|by right].
Qed.

Lemma indexes_of_snoc_ne b x y idxs :
  y ≠ x → indexes_of b x idxs → indexes_of (b ++ [y]) x idxs.
Proof.
  intros Hne [Hs Hm]. split; [done|]. intros j.
  rewrite Hm, lookup_snoc_Some. split.
  - intros Hj. left. split; [by eapply lookup_lt_Some|done].
  - intros [[_ Hj]|[_ ?]]; [done|congruence].
Qed.

(** The index built by the first loop of [__chain_b]. *)
Lemma index_b_spec b x :
  match index_b b !! x with
  | Some idxs => indexes_of b x idxs ∧ x ∈ b
  | None => x ∉ b
  end.
Proof.
  induction b as [|y b IH] using rev_ind.
  - unfold index_b. simpl. rewrite lookup_empty. by intros ?%elem_of_nil.
  - rewrite index_b_snoc. unfold setdefault_append. simpl.
    destruct (decide (y = x)) as [->|Hne].
    + rewrite lookup_insert_eq. split; [|set_solver].
      apply indexes_of_snoc_eq.
      destruct (index_b b !! x); simpl; [tauto|by apply indexes_of_absent].
    + rewrite lookup_insert_ne by done.
      destruct (index_b b !! x).
      * split; [apply indexes_of_snoc_ne; tauto|set_solver].
      * set_solver.
Qed.

Lemma chain_b_sound b : b2j_sound b (chain_b b).
Proof.
  intros x idxs. unfold chain_b. simpl.
  pose proof (index_b_spec b x) as Hx.
  destruct (decide (200 ≤ length b)).
  - intros [Hl _]%map_lookup_filter_Some. rewrite Hl in Hx. tauto.
  - intros Hl. rewrite Hl in Hx. tauto.
Qed.

Lemma occurrences_snoc x b y :
  occurrences x (b ++ [y])
  = occurrences x b + (if decide (y = x) then 1 else 0).
Proof.
  unfold occurrences. rewrite filter_app, length_app. f_equal.
  rewrite filter_cons, filter_nil. by destruct (decide (y = x)).
Qed.

Lemma index_b_length b x :
  length (default [] (index_b b !! x)) = occurrences x b.
Proof.
  induction b as [|y b IH] using rev_ind.
  - unfold index_b. simpl. by rewrite lookup_empty.
  - rewrite index_b_snoc, occurrences_snoc. unfold setdefault_append. simpl.
    destruct (decide (y = x)) as [->|Hne].
    + rewrite lookup_insert_eq. simpl. rewrite length_app, IH. done.
    + rewrite lookup_insert_ne by done. rewrite IH. lia.
Qed.

(** Without popular elements the index is complete. *)
Lemma chain_b_complete b : no_popular b → b2j_complete b (chain_b b).
Proof.
  intros Hn x Hx. unfold chain_b. simpl.
  pose proof (index_b_spec b x) as Hs.
  pose proof (index_b_length b x) as Hl.
  destruct (index_b b !! x) as [idxs|] eqn:E; [|done]. simpl in Hl.
  destruct (decide (200 ≤ length b)); [|eauto].
  destruct Hn as [?|Hn]; [lia|].
  exists idxs. apply map_lookup_filter_Some. split; [done|].
  unfold popular. change ((x, idxs).2) with idxs. specialize (Hn x). lia.
Qed.
End chain_b_facts.

Section scan_facts.
Context `{Countable A}.
Import Difflib.
Context (a b : list A) (b2j : gmap A (list nat)) (alo blo bhi : nat).
Hypothesis Hsound : b2j_sound b b2j.

Local Abbreviation hit := (hit a b b2j alo blo).
Local Abbreviation run := (run a b b2j alo blo).
Local Abbreviation prevrun := (prevrun a b b2j alo blo).

Lemma run_unfold i j : run i j = if hit i j then S (prevrun i j) else 0.
Proof. by destruct i. Qed.

Lemma hit_true i j :
  hit i j = true ↔
  alo ≤ i ∧ blo ≤ j ∧
  ∃ x, a !! i = Some x ∧ b !! j = Some x ∧ is_Some (b2j !! x).
Proof.
  unfold Difflib.hit. rewrite !andb_true_iff, !bool_decide_eq_true.
  destruct (a !! i) as [x|], (b !! j) as [y|];
    try rewrite andb_true_iff, !bool_decide_eq_true; naive_solver.
Qed.

Lemma hit_same_at i j : hit i j = true → same_at a b i j = true.
Proof.
  intros (_ & _ & x & Ha & Hb & _)%hit_true. unfold same_at.
  rewrite Ha, Hb. by apply bool_decide_eq_true.
Qed.

Lemma run_pos_hit i j : 0 < run i j → hit i j = true.
Proof. rewrite run_unfold. destruct (hit i j); [done|lia]. Qed.

Lemma run_not_hit i j : hit i j = false → run i j = 0.
Proof. rewrite run_unfold. by intros ->. Qed.

Lemma run_bound i j : run i j ≤ i + 1 - alo ∧ run i j ≤ j + 1 - blo.
Proof.
  revert j. induction i as [|i IH]; intros j; rewrite run_unfold;
    destruct (hit _ j) eqn:Hh; try lia;
    apply hit_true in Hh as (? & ? & _).
  - simpl. lia.
  - destruct j as [|j]; simpl; [lia|].
    destruct (IH j) as [Hi Hj].
    destruct (decide (0 < run i j)) as [Hp|]; [|lia].
    apply run_pos_hit, hit_true in Hp. lia.
Qed.

Lemma run_hits i j t : t < run i j → t ≤ i ∧ t ≤ j ∧ hit (i - t) (j - t) = true.
Proof.
  revert j t. induction i as [|i IH]; intros j t Ht.
  - pose proof (run_pos_hit 0 j ltac:(lia)) as Hh.
    rewrite run_unfold, Hh in Ht. simpl in Ht.
    assert (t = 0) as -> by lia. rewrite !Nat.sub_0_r. auto with lia.
  - pose proof (run_pos_hit (S i) j ltac:(lia)) as Hh.
    rewrite run_unfold, Hh in Ht.
    destruct t as [|t]; [rewrite !Nat.sub_0_r; auto with lia|].
    destruct j as [|j]; simpl in Ht; [lia|].
    destruct (IH j t) as (? & ? & ?); [lia|]. simpl. auto with lia.
Qed.

Lemma run_max i j k :
  k ≤ i + 1 → k ≤ j + 1 →
  (∀ t, t < k → hit (i - t) (j - t) = true) → k ≤ run i j.
Proof.
  revert j k. induction i as [|i IH]; intros j k Hi Hj Hk;
    (destruct k as [|k]; [lia|]);
    pose proof (Hk 0 ltac:(lia)) as Hh; rewrite !Nat.sub_0_r in Hh;
    rewrite run_unfold, Hh.
  - lia.
  - destruct k as [|k]; [lia|]. destruct j as [|j]; [lia|]. simpl.
    apply le_n_S, IH; [lia|lia|].
    intros t Ht. apply (Hk (S t)). lia.
Qed.

(** A position between the visited indices and the remaining ones holds
    no occurrence of [a[i]]. *)
Lemma skipped_run_zero i j rest jj :
  (∀ j', hit i j' = true → j' ∈ j :: rest ∨ Forall (lt j') (j :: rest)) →
  Forall (lt jj) rest → ¬ jj < j → jj ≠ j ∨ hit i j = false →
  run i jj = 0.
Proof.
  intros Hc Hrest Hnlt Hj. apply run_not_hit.
  destruct (hit i jj) eqn:Hh; [exfalso|done].
  destruct (Hc _ Hh) as [Hin|Hall].
  - apply elem_of_cons in Hin as [->|Hin]; [destruct Hj; congruence|].
    rewrite Forall_forall in Hrest. specialize (Hrest _ Hin). lia.
  - apply Forall_cons in Hall as [? _]. lia.
Qed.

Lemma best_inv_weaken (P Q : nat → nat → Prop) best :
  (∀ i' j', Q i' j' → P i' j' ∨ run i' j' = 0) →
  (∀ i' j', P i' j' → Q i' j') →
  best_inv a b b2j alo blo bhi P best → best_inv a b b2j alo blo bhi Q best.
Proof.
  intros HQP HPQ [Hmax Hfirst]. split.
  - intros i' j' [HP| ->]%HQP; [by apply Hmax|lia].
  - destruct Hfirst as [->|(i' & j' & HP & ?)]; [by left|].
    right. exists i', j'. split; [by apply HPQ|done].
Qed.

Lemma processed_earlier i todo i' j' :
  alo ≤ i' → j' < bhi → i' < i → processed alo bhi i todo i' j'.
Proof. unfold processed. auto. Qed.

Lemma processed_row i todo j' :
  alo ≤ i → j' < bhi → Forall (lt j') todo → processed alo bhi i todo i j'.
Proof. unfold processed. auto. Qed.

Lemma scan_row_inv i j2len todo new best :
  alo ≤ i →
  StronglySorted lt todo →
  (∀ j, j ∈ todo → blo ≤ j → hit i j = true) →
  (∀ j, hit i j = true → j ∈ todo ∨ Forall (lt j) todo) →
  (∀ j, j < bhi → j2lenget j2len j = prevrun i j) →
  (∀ j, j < bhi →
     default 0 (new !! j)
     = if decide (Forall (lt j) todo) then run i j else 0) →
  best_inv a b b2j alo blo bhi (processed alo bhi i todo) best →
  (∀ j, j < bhi →
     default 0 ((scan_row i blo bhi j2len todo new best).1 !! j) = run i j)
  ∧ best_inv a b b2j alo blo bhi (processed alo bhi i [])
      (scan_row i blo bhi j2len todo new best).2.
Proof.
  intros Hi. revert new best.
  induction todo as [|j rest IH]; intros new best Hs Hhit Hc Hprev Hnew Hbest.
  { simpl. split; [|done]. intros j Hj. rewrite (Hnew j Hj).
    by rewrite decide_True by constructor. }
  apply StronglySorted_cons in Hs as [Hjr Hs]. simpl.
  destruct (decide (j < blo)) as [Hlo|Hlo].
  - (* continue *)
    assert (hit i j = false) as Hnh.
    { destruct (hit i j) eqn:E; [|done]. apply hit_true in E. lia. }
    apply IH; clear IH; [done|..].
    + intros j' Hj'. apply Hhit. by right.
    + intros j' Hj'. destruct (Hc _ Hj') as [Hin|Hall].
      * apply elem_of_cons in Hin as [->|Hin]; [congruence|by left].
      * right. by apply Forall_cons in Hall as [_ ?].
    + done.
    + intros j' Hj'. rewrite (Hnew j' Hj').
      destruct (decide (Forall (lt j') rest)) as [Hr|Hr].
      * destruct (decide (j' < j)).
        -- by rewrite decide_True by (by constructor).
        -- rewrite decide_False by (by intros [? _]%Forall_cons).
           symmetry. eapply skipped_run_zero; eauto.
      * by rewrite decide_False by (by intros [_ ?]%Forall_cons).
    + eapply best_inv_weaken; [| |exact Hbest].
      * intros i' j' (? & ? & [?|[-> Hr]]); [left; by apply processed_earlier|].
        destruct (decide (j' < j)).
        -- left. apply processed_row; [done..|by constructor].
        -- right. eapply skipped_run_zero; eauto.
      * intros i' j' (? & ? & [?|[-> Hr]]); [by apply processed_earlier|].
        apply processed_row; [done..|]. by apply Forall_cons in Hr as [_ ?].
  - destruct (decide (bhi ≤ j)) as [Hhi|Hhi].
    + (* break *)
      assert (∀ j', j' < bhi → Forall (lt j') (j :: rest)) as Hall.
      { intros j' Hj'. constructor; [lia|].
        eapply Forall_impl; [exact Hjr|]. simpl. lia. }
      split.
      * intros j' Hj'. simpl. rewrite (Hnew j' Hj').
        by rewrite decide_True by auto.
      * eapply best_inv_weaken; [| |exact Hbest].
        -- intros i' j' (? & ? & [?|[-> _]]); left;
             [by apply processed_earlier|apply processed_row; auto].
        -- intros i' j' (? & ? & [?|[-> _]]);
             [by apply processed_earlier|by apply processed_row].
    + (* a[i] matches b[j] inside the window *)
      assert (hit i j = true) as Hh by (apply Hhit; [by left|lia]).
      assert (j2lenget j2len j + 1 = run i j) as Hk.
      { rewrite run_unfold, Hh, Hprev by lia. lia. }
      rewrite Hk. apply IH; clear IH; [done|..].
      * intros j' Hj'. apply Hhit. by right.
      * intros j' Hj'. destruct (Hc _ Hj') as [Hin|Hall].
        -- apply elem_of_cons in Hin as [->|Hin]; [by right|by left].
        -- right. by apply Forall_cons in Hall as [_ ?].
      * done.
      * intros j' Hj'. destruct (decide (j' = j)) as [->|Hne].
        -- rewrite lookup_insert_eq. simpl. by rewrite decide_True.
        -- rewrite lookup_insert_ne by done. rewrite (Hnew j' Hj').
           destruct (decide (Forall (lt j') rest)) as [Hr|Hr].
           ++ destruct (decide (j' < j)).
              ** by rewrite decide_True by (by constructor).
              ** rewrite decide_False by (by intros [? _]%Forall_cons).
                 symmetry. eapply skipped_run_zero; eauto.
           ++ by rewrite decide_False by (by intros [_ ?]%Forall_cons).
      * destruct Hbest as [Hmax Hfirst].
        assert (∀ i' j', processed alo bhi i rest i' j' →
                  processed alo bhi i (j :: rest) i' j'
                  ∨ (i' = i ∧ j' = j) ∨ run i' j' = 0) as Hcases.
        { intros i' j' (? & ? & [?|[-> Hr]]);
            [left; by apply processed_earlier|].
          destruct (decide (j' < j));
            [left; apply processed_row; [done..|by constructor]|].
          destruct (decide (j' = j)) as [->|]; [by right; left|].
          right; right. eapply skipped_run_zero; eauto. }
        assert (∀ i' j', processed alo bhi i (j :: rest) i' j' →
                  processed alo bhi i rest i' j') as Hmono.
        { intros i' j' (? & ? & [?|[-> Hr]]);
            [by apply processed_earlier|].
          apply processed_row; [done..|].
          by apply Forall_cons in Hr as [_ ?]. }
        destruct (decide (best.2 < run i j)) as [Hlt|Hge]; split; simpl.
        -- intros i' j' [HP|[[-> ->]| ->]]%Hcases; [|lia..].
           specialize (Hmax _ _ HP). lia.
        -- right. exists i, j. split; [apply processed_row; auto with lia|].
           split; [lia|]. split; [done|].
           intros i'' j'' ? ? Hlex.
           assert (processed alo bhi i (j :: rest) i'' j'') as HP.
           { destruct Hlex as [?|[-> ?]]; [by apply processed_earlier|].
             apply processed_row; [done..|]. constructor; [done|].
             eapply Forall_impl; [exact Hjr|]. simpl. lia. }
           specialize (Hmax _ _ HP). lia.
        -- intros i' j' [HP|[[-> ->]| ->]]%Hcases; [|lia..].
           by apply Hmax.
        -- destruct Hfirst as [->|(i' & j' & HP & ?)]; [by left|].
           right. exists i', j'. split; [by apply Hmono|done].
Qed.

Lemma b2j_get_sorted i : StronglySorted lt (b2j_get a b2j i).
Proof.
  unfold b2j_get. destruct (a !! i) as [x|]; [|constructor].
  destruct (b2j !! x) as [idxs|] eqn:E; [|constructor].
  by destruct (Hsound _ _ E).
Qed.

Lemma b2j_get_hit i j :
  alo ≤ i → j ∈ b2j_get a b2j i → blo ≤ j → hit i j = true.
Proof.
  unfold b2j_get. intros Hi Hj Hlo. apply hit_true.
  destruct (a !! i) as [x|]; [|by apply elem_of_nil in Hj].
  destruct (b2j !! x) as [idxs|] eqn:E; [|by apply elem_of_nil in Hj].
  destruct (Hsound _ _ E) as [_ Hm]. apply Hm in Hj. eauto 10.
Qed.

Lemma hit_b2j_get i j : hit i j = true → j ∈ b2j_get a b2j i.
Proof.
  intros (_ & _ & x & Ha & Hb & [idxs E])%hit_true.
  unfold b2j_get. rewrite Ha, E. simpl.
  destruct (Hsound _ _ E) as [_ Hm]. by apply Hm.
Qed.

Lemma unvisited_run_zero i j :
  Forall (lt j) (b2j_get a b2j i) → run i j = 0.
Proof.
  intros Hall. apply run_not_hit. destruct (hit i j) eqn:E; [|done].
  apply hit_b2j_get in E. rewrite Forall_forall in Hall.
  specialize (Hall _ E). lia.
Qed.

Lemma prevrun_first j : prevrun alo j = 0.
Proof.
  unfold Difflib.prevrun. destruct alo as [|i'] eqn:E; [done|].
  destruct j as [|j']; [done|]. rewrite <- E. apply run_not_hit.
  destruct (hit i' j') eqn:Hh; [|done]. apply hit_true in Hh. lia.
Qed.

(** The state of the scan after [n] rows. *)
Lemma scan_rows_inv n :
  let st := foldl (scan_step a b2j blo bhi) (∅, (alo, blo, 0)) (seq alo n) in
  (∀ j, j < bhi → j2lenget st.1 j = prevrun (alo + n) j) ∧
  best_inv a b b2j alo blo bhi
    (λ i' j', alo ≤ i' ∧ j' < bhi ∧ i' < alo + n) st.2.
Proof.
  induction n as [|n [IHmap IHbest]]; cbv zeta.
  - simpl. split.
    + intros j _. rewrite Nat.add_0_r, prevrun_first.
      destruct j; [done|]. simpl. by rewrite lookup_empty.
    + split; [intros i' j'; lia|by left].
  - rewrite seq_S, foldl_app. simpl. unfold scan_step at 1 3.
    set (st := foldl _ _ _) in *.
    destruct (scan_row_inv (alo + n) st.1 (b2j_get a b2j (alo + n)) ∅ st.2)
      as [Hmap Hbest].
    + lia.
    + apply b2j_get_sorted.
    + intros j. apply b2j_get_hit. lia.
    + intros j Hj. left. by apply hit_b2j_get.
    + done.
    + intros j _. rewrite lookup_empty. simpl.
      destruct (decide _); [|done]. symmetry. by apply unvisited_run_zero.
    + eapply best_inv_weaken; [| |exact IHbest].
      * intros i' j' (? & ? & [?|[-> Hr]]); [left; auto|].
        right. by apply unvisited_run_zero.
      * intros i' j' (? & ? & ?). by apply processed_earlier.
    + split.
      * intros j Hj. rewrite Nat.add_succ_r.
        destruct j as [|j]; [done|]. simpl. apply Hmap. lia.
      * eapply best_inv_weaken; [| |exact Hbest].
        -- intros i' j' (? & ? & ?). left.
           destruct (decide (i' = alo + n)) as [->|].
           ++ apply processed_row; [lia|done|constructor].
           ++ apply processed_earlier; [done..|lia].
        -- intros i' j' (? & ? & [?|[-> _]]); split_and!; auto with lia.
Qed.

Lemma scan_best_inv ahi :
  alo ≤ ahi →
  best_inv a b b2j alo blo bhi (λ i' j', alo ≤ i' ∧ j' < bhi ∧ i' < ahi)
    (scan a b2j alo ahi blo bhi).2.
Proof.
  intros Hlo. pose proof (scan_rows_inv (ahi - alo)) as [_ Hb].
  by replace (alo + (ahi - alo)) with ahi in Hb by lia.
Qed.

(** The scan returns a block of [a] and [b] inside the window. *)
Lemma scan_block ahi :
  alo ≤ ahi → blo ≤ bhi →
  common_block a b (alo, ahi, blo, bhi) (scan a b2j alo ahi blo bhi).2.
Proof.
  intros Ha Hb. destruct (scan_best_inv ahi Ha) as [_ Hfirst].
  destruct Hfirst as [->|(i' & j' & (? & ? & ?) & Hpos & -> & _)].
  - unfold common_block. split_and!; lia.
  - pose proof (run_bound i' j') as [? ?].
    unfold common_block. split_and!; try lia.
    intros t Ht.
    destruct (run_hits i' j' (run i' j' - 1 - t)) as (? & ? & Hh); [lia|].
    apply hit_same_at in Hh.
    by replace (i' - (run i' j' - 1 - t)) with (i' + 1 - run i' j' + t)
      in Hh by lia;
    replace (j' - (run i' j' - 1 - t)) with (j' + 1 - run i' j' + t)
      in Hh by lia.
Qed.

Lemma scan_max ahi i' j' :
  alo ≤ i' → i' < ahi → j' < bhi →
  run i' j' ≤ (scan a b2j alo ahi blo bhi).2.2.
Proof.
  intros. destruct (scan_best_inv ahi ltac:(lia)) as [Hmax _].
  by apply Hmax.
Qed.

(** With a complete index every block inside the window is a run. *)
Lemma block_run ahi i j k :
  b2j_complete b b2j →
  common_block a b (alo, ahi, blo, bhi) (i, j, k) → 0 < k →
  k ≤ run (i + k - 1) (j + k - 1).
Proof.
  intros Hcomplete (? & ? & ? & ? & Hsame) Hk.
  apply run_max; [lia..|]. intros t Ht.
  specialize (Hsame (k - 1 - t) ltac:(lia)).
  replace (i + k - 1 - t) with (i + (k - 1 - t)) by lia.
  replace (j + k - 1 - t) with (j + (k - 1 - t)) by lia.
  apply hit_true. split_and!; [lia..|].
  unfold same_at in Hsame.
  destruct (a !! _) as [x|] eqn:Ea; [|done].
  destruct (b !! _) as [y|] eqn:Eb; [|done].
  apply bool_decide_eq_true in Hsame as ->.
  exists y. split_and!; [done..|].
  apply Hcomplete. by eapply list_elem_of_lookup_2.
Qed.

Lemma scan_longest ahi i j k :
  b2j_complete b b2j →
  common_block a b (alo, ahi, blo, bhi) (i, j, k) →
  k ≤ (scan a b2j alo ahi blo bhi).2.2.
Proof.
  intros Hcomplete Hblock. destruct (decide (0 < k)) as [Hk|]; [|lia].
  pose proof (block_run _ _ _ _ Hcomplete Hblock Hk) as Hrun.
  destruct Hblock as (? & ? & ? & ? & _).
  etrans; [exact Hrun|]. apply scan_max; lia.
Qed.
End scan_facts.

Section extend_facts.
Context `{Countable A}.
Import Difflib.
Context (a b : list A).

Lemma junk_at_true j : junk_at true b j = false.
Proof. unfold junk_at. by destruct (b !! j). Qed.

Lemma same_at_junk_false i j :
  same_at a b i j = true → junk_at false b j = true.
Proof.
  unfold same_at, junk_at. destruct (a !! i), (b !! j); try done.
Qed.

(** With no junk the two junk-absorbing loops do nothing. *)
Lemma extend_left_true alo blo bi bj bk :
  extend_left true a b alo blo bi bj bk = (bi, bj, bk).
Proof.
  destruct bi, bj; simpl; try done.
  by rewrite junk_at_true, andb_false_r.
Qed.

Lemma extend_right_true ahi bhi bi bj fuel bk :
  extend_right true a b ahi bhi bi bj fuel bk = bk.
Proof.
  destruct fuel; simpl; [done|].
  by rewrite junk_at_true, andb_false_r.
Qed.

Lemma extend_true alo ahi blo bhi best :
  extend true a b alo ahi blo bhi best = best.
Proof.
  destruct best as [[bi bj] bk]. unfold extend. simpl.
  by rewrite extend_left_true, extend_right_true.
Qed.

Lemma extend_left_spec want alo blo bi bj bk :
  let r := extend_left want a b alo blo bi bj bk in
  (alo ≤ bi → alo ≤ r.1.1) ∧ (blo ≤ bj → blo ≤ r.1.2) ∧
  r.1.1 + r.2 = bi + bk ∧ r.1.2 + r.2 = bj + bk ∧ bk ≤ r.2 ∧
  ∀ t, t < r.2 - bk → same_at a b (r.1.1 + t) (r.1.2 + t) = true.
Proof.
  revert bj bk. induction bi as [|bi IH]; intros bj bk; cbv zeta.
  { simpl. split_and!; try lia. }
  destruct bj as [|bj]; [simpl; split_and!; lia|].
  simpl. destruct (_ && _) eqn:Hc; [|simpl; split_and!; lia].
  apply andb_true_iff in Hc as [Hc Hsame].
  apply andb_true_iff in Hc as [Hc _].
  apply andb_true_iff in Hc as [Hi Hj].
  apply bool_decide_eq_true in Hi, Hj.
  destruct (IH bj (S bk)) as (Hlo1 & Hlo2 & Hs1 & Hs2 & Hle & Hblock).
  set (r := extend_left _ _ _ _ _ _ _ _) in *.
  split_and!; try lia.
  intros t Ht. destruct (decide (t < r.2 - S bk)); [by apply Hblock|].
  by replace (r.1.1 + t) with bi by lia; replace (r.1.2 + t) with bj by lia.
Qed.

Lemma extend_right_spec want ahi bhi bi bj fuel bk :
  let k := extend_right want a b ahi bhi bi bj fuel bk in
  bk ≤ k ∧ (bi + bk ≤ ahi → bi + k ≤ ahi) ∧ (bj + bk ≤ bhi → bj + k ≤ bhi) ∧
  ∀ t, bk ≤ t → t < k → same_at a b (bi + t) (bj + t) = true.
Proof.
  revert bk. induction fuel as [|fuel IH]; intros bk; cbv zeta; simpl.
  { split_and!; lia. }
  destruct (_ && _) eqn:Hc; [|split_and!; lia].
  apply andb_true_iff in Hc as [Hc Hsame].
  apply andb_true_iff in Hc as [Hc _].
  apply andb_true_iff in Hc as [Hi Hj].
  apply bool_decide_eq_true in Hi, Hj.
  destruct (IH (S bk)) as (Hle & Ha & Hb & Hblock).
  split_and!; try lia.
  intros t Ht1 Ht2. destruct (decide (t = bk)) as [->|]; [done|].
  apply Hblock; lia.
Qed.

(** The fuel [ahi - (besti + bestsize)] is enough: the loop stops
    because its condition fails. *)
Lemma extend_right_stops want ahi bhi bi bj fuel bk :
  ahi - (bi + bk) ≤ fuel →
  let k := extend_right want a b ahi bhi bi bj fuel bk in
  bool_decide (bi + k < ahi) && bool_decide (bj + k < bhi)
  && junk_at want b (bj + k) && same_at a b (bi + k) (bj + k) = false.
Proof.
  revert bk. induction fuel as [|fuel IH]; intros bk Hfuel; cbv zeta; simpl.
  - by rewrite bool_decide_eq_false_2 by lia.
  - match goal with
    | |- context [if ?c then _ else _] => destruct c eqn:Hc
    end; [|done].
    apply IH. repeat (apply andb_true_iff in Hc as [Hc _]).
    apply bool_decide_eq_true in Hc. lia.
Qed.

(** Extending a block of the window gives a block of the window that is
    at least as long. *)
Lemma extend_block want alo ahi blo bhi best :
  common_block a b (alo, ahi, blo, bhi) best →
  common_block a b (alo, ahi, blo, bhi)
    (extend want a b alo ahi blo bhi best)
  ∧ best.2 ≤ (extend want a b alo ahi blo bhi best).2.
Proof.
  destruct best as [[bi bj] bk]. intros (Ha1 & Ha2 & Hb1 & Hb2 & Hsame).
  unfold extend. simpl.
  pose proof (extend_left_spec want alo blo bi bj bk) as Hl.
  destruct (extend_left want a b alo blo bi bj bk) as [[i j] k].
  simpl in Hl. destruct Hl as (? & ? & ? & ? & ? & Hleft).
  pose proof (extend_right_spec want ahi bhi i j (ahi - (i + k)) k) as Hr.
  set (k' := extend_right _ _ _ _ _ _ _ _ _) in *.
  simpl in Hr. destruct Hr as (? & ? & ? & Hright).
  simpl. split; [|lia]. split_and!; try lia.
  intros t Ht. destruct (decide (t < k - bk)); [by apply Hleft|].
  destruct (decide (t < k)); [|apply Hright; lia].
  specialize (Hsame (t - (k - bk)) ltac:(lia)).
  by replace (bi + (t - (k - bk))) with (i + t) in Hsame by lia;
  replace (bj + (t - (k - bk))) with (j + t) in Hsame by lia.
Qed.
End extend_facts.

Section find_longest_match_facts.
Context `{Countable A}.
Import Difflib.
Context (a b : list A) (b2j : gmap A (list nat)).
Hypothesis Hsound : b2j_sound b b2j.

(** [find_longest_match] returns a block [a[i:i+k] == b[j:j+k]] inside
    the window. *)
Lemma find_longest_match_block alo ahi blo bhi :
  alo ≤ ahi → blo ≤ bhi →
  common_block a b (alo, ahi, blo, bhi)
    (find_longest_match a b b2j alo ahi blo bhi).
Proof.
  intros Ha Hb. unfold find_longest_match. rewrite extend_true.
  apply extend_block. by apply scan_block.
Qed.

(** With nothing purged from the index, no block inside the window is
    longer than the one returned. *)
Lemma find_longest_match_longest alo ahi blo bhi i j k :
  b2j_complete b b2j → alo ≤ ahi → blo ≤ bhi →
  common_block a b (alo, ahi, blo, bhi) (i, j, k) →
  k ≤ (find_longest_match a b b2j alo ahi blo bhi).2.
Proof.
  intros Hcomplete Ha Hb Hblock.
  unfold find_longest_match. rewrite extend_true.
  etrans; [by eapply scan_longest|].
  apply extend_block. by apply scan_block.
Qed.
End find_longest_match_facts.

Section blocks_loop_facts.
Context `{Countable A}.
Import Difflib.
Context (a b : list A) (b2j : gmap A (list nat)).
Hypothesis Hsound : b2j_sound b b2j.

Lemma sum_sizes_app l1 l2 :
  sum_sizes (l1 ++ l2) = sum_sizes l1 + sum_sizes l2.
Proof. induction l1 as [|m l1 IH]; simpl; [done|]. rewrite IH. lia. Qed.

Lemma sum_sizes_perm l1 l2 : l1 ≡ₚ l2 → sum_sizes l1 = sum_sizes l2.
Proof. induction 1; simpl; lia. Qed.

Lemma collapse_sum cur blocks acc :
  sum_sizes (collapse cur blocks acc)
  = sum_sizes acc + cur.2 + sum_sizes blocks.
Proof.
  revert cur acc. induction blocks as [|[[i2 j2] k2] blocks IH];
    intros [[i1 j1] k1] acc; simpl.
  - destruct (decide (k1 = 0)) as [->|]; [lia|].
    rewrite sum_sizes_app. simpl. unfold match_size. simpl. lia.
  - destruct (decide _); rewrite IH; simpl; unfold match_size; simpl;
      [lia|].
    destruct (decide (k1 = 0)) as [->|]; [lia|].
    rewrite sum_sizes_app. simpl. unfold match_size. simpl. lia.
Qed.

Lemma window_ok_block alo ahi blo bhi :
  window_ok a b (alo, ahi, blo, bhi) →
  common_block a b (alo, ahi, blo, bhi)
    (find_longest_match a b b2j alo ahi blo bhi).
Proof. intros (? & ? & ? & ?). by apply find_longest_match_block. Qed.

Lemma process_pushed_ok w :
  window_ok a b w → Forall (window_ok a b) (process a b b2j w).2.
Proof.
  destruct w as [[[alo ahi] blo] bhi]. intros Hw.
  pose proof (window_ok_block _ _ _ _ Hw) as Hb.
  unfold process. destruct (find_longest_match _ _ _ _ _ _ _) as [[i j] k].
  destruct Hw as (? & ? & ? & ?), Hb as (? & ? & ? & ? & _).
  destruct (decide (k = 0)); simpl; [constructor|].
  apply Forall_app. split; case_decide; repeat constructor; simpl; lia.
Qed.

Lemma process_turns w :
  window_ok a b w →
  sum_list_with turns (process a b b2j w).2 < turns w.
Proof.
  destruct w as [[[alo ahi] blo] bhi]. intros Hw.
  pose proof (window_ok_block _ _ _ _ Hw) as Hb.
  unfold process. destruct (find_longest_match _ _ _ _ _ _ _) as [[i j] k].
  destruct Hw as (? & ? & ? & ?), Hb as (? & ? & ? & ? & _).
  destruct (decide (k = 0)); simpl; [lia|].
  rewrite sum_list_with_app.
  repeat case_decide; simpl; lia.
Qed.

(** The queue loop ends within the turns its windows need. *)
Lemma blocks_loop_total fuel queue acc :
  Forall (window_ok a b) queue →
  sum_list_with turns queue ≤ fuel →
  is_Some (blocks_loop a b b2j fuel queue acc).
Proof.
  revert queue acc. induction fuel as [|fuel IH]; intros queue acc Hq Hf.
  - destruct queue as [|[[[alo ahi] blo] bhi] q]; simpl; [eauto|].
    simpl in Hf. lia.
  - destruct queue as [|w q]; simpl; [eauto|].
    apply Forall_cons in Hq as [Hw Hq].
    pose proof (process_pushed_ok w Hw) as Hp.
    pose proof (process_turns w Hw) as Ht.
    destruct (process a b b2j w) as [found pushed]. simpl in *.
    apply IH; [by apply Forall_app|].
    rewrite sum_list_with_app. lia.
Qed.

Section totals.
Variable R : Window → nat → Prop.
Hypothesis R_none : ∀ alo ahi blo bhi,
  window_ok a b (alo, ahi, blo, bhi) →
  (find_longest_match a b b2j alo ahi blo bhi).2 = 0 →
  R (alo, ahi, blo, bhi) 0.
Hypothesis R_empty : ∀ alo ahi blo bhi,
  window_ok a b (alo, ahi, blo, bhi) → alo = ahi ∨ blo = bhi →
  R (alo, ahi, blo, bhi) 0.
Hypothesis R_block : ∀ alo ahi blo bhi i j k M1 M2,
  window_ok a b (alo, ahi, blo, bhi) →
  find_longest_match a b b2j alo ahi blo bhi = (i, j, k) → k ≠ 0 →
  R (alo, i, blo, j) M1 → R (i + k, ahi, j + k, bhi) M2 →
  R (alo, ahi, blo, bhi) (k + M1 + M2).

(** Whatever the loop appends adds up to totals, one per window of the
    queue, that [R] accepts. *)
Lemma blocks_loop_totals fuel queue acc res :
  Forall (window_ok a b) queue →
  blocks_loop a b b2j fuel queue acc = Some res →
  ∃ Ms, Forall2 R queue Ms ∧ sum_sizes res = sum_sizes acc + sum_list Ms.
Proof.
  revert queue acc. induction fuel as [|fuel IH]; intros queue acc Hq.
  - destruct queue; simpl; [|done]. intros [= <-].
    exists []. split; [constructor|simpl; lia].
  - destruct queue as [|w q]; simpl.
    { intros [= <-]. exists []. split; [constructor|simpl; lia]. }
    apply Forall_cons in Hq as [Hw Hq].
    pose proof (process_pushed_ok w Hw) as Hp.
    destruct w as [[[alo ahi] blo] bhi].
    pose proof (window_ok_block _ _ _ _ Hw) as Hb.
    unfold process in *.
    destruct (find_longest_match a b b2j alo ahi blo bhi)
      as [[i j] k] eqn:Hflm.
    destruct (decide (k = 0)) as [->|Hk].
    + simpl. rewrite app_nil_r. intros (Ms & HMs & Hsum)%IH; [|done].
      exists (0 :: Ms). split; [|simpl; lia].
      constructor; [|done]. apply R_none; [done|]. by rewrite Hflm.
    + intros (Ms & HMs & Hsum)%IH; [|by apply Forall_app].
      apply Forall2_app_inv_l in HMs as (Mp & Mq & HMp & HMq & ->).
      apply Forall2_app_inv_l in HMp as (Mr & Ml & HMr & HMl & ->).
      destruct Hw as (? & ? & ? & ?), Hb as (? & ? & ? & ? & _).
      assert (∃ M1, R (alo, i, blo, j) M1 ∧ sum_list Ml = M1)
        as (M1 & HM1 & HsumM1).
      { destruct (decide (alo < i ∧ blo < j)).
        - apply Forall2_cons_inv_l in HMl as (M1 & ? & ? & Hnil & ->).
          apply Forall2_nil_inv_l in Hnil as ->.
          exists M1. split; [done|simpl; lia].
        - apply Forall2_nil_inv_l in HMl as ->. exists 0.
          split; [|done]. apply R_empty; [|lia].
          unfold window_ok. lia. }
      assert (∃ M2, R (i + k, ahi, j + k, bhi) M2 ∧ sum_list Mr = M2)
        as (M2 & HM2 & HsumM2).
      { destruct (decide (i + k < ahi ∧ j + k < bhi)).
        - apply Forall2_cons_inv_l in HMr as (M2 & ? & ? & Hnil & ->).
          apply Forall2_nil_inv_l in Hnil as ->.
          exists M2. split; [done|simpl; lia].
        - apply Forall2_nil_inv_l in HMr as ->. exists 0.
          split; [|done]. apply R_empty; [|lia].
          unfold window_ok. lia. }
      exists ((k + M1 + M2) :: Mq). split.
      * constructor; [|done].
        eapply R_block; eauto. unfold window_ok. lia.
      * rewrite Hsum, sum_sizes_app, !sum_list_with_app. simpl.
        unfold match_size. simpl. lia.
Qed.
End totals.
End blocks_loop_facts.

Section matches_facts.
Context `{Countable A}.
Import Difflib.
Implicit Types a b : list A.

Lemma whole_window_ok a b : window_ok a b (0, length a, 0, length b).
Proof. unfold window_ok. lia. Qed.

(** [get_matching_blocks] always returns, and the sizes of its triples
    add up to the sizes of the blocks the queue loop found: sorting,
    collapsing adjacent blocks and the final dummy triple change
    nothing in the sum. *)
Lemma matches_blocks a b :
  ∃ blocks,
    blocks_loop a b (chain_b b) (2 * length a + 1)
      [(0, length a, 0, length b)] [] = Some blocks
    ∧ matches a b = Some (sum_sizes blocks).
Proof.
  assert (is_Some (blocks_loop a b (chain_b b) (2 * length a + 1)
                     [(0, length a, 0, length b)] [])) as [blocks Hblocks].
  { apply blocks_loop_total; [apply chain_b_sound| |simpl; lia].
    constructor; [apply whole_window_ok|constructor]. }
  exists blocks. split; [done|].
  unfold matches, get_matching_blocks. cbv zeta. rewrite Hblocks. simpl.
  f_equal. rewrite sum_sizes_app, collapse_sum. simpl.
  rewrite (sum_sizes_perm _ _ (merge_sort_Permutation _ blocks)).
  unfold match_size. simpl. lia.
Qed.

Lemma matches_total a b : is_Some (matches a b).
Proof. destruct (matches_blocks a b) as (? & _ & ->). eauto. Qed.

(** The matched elements are counted once on either side. *)
Lemma matches_bound a b M :
  matches a b = Some M → M ≤ length a ∧ M ≤ length b.
Proof.
  destruct (matches_blocks a b) as (blocks & Hloop & ->). intros [= <-].
  assert (∃ Ms, Forall2 window_bound [(0, length a, 0, length b)] Ms
                ∧ sum_sizes blocks = sum_sizes [] + sum_list Ms)
    as (Ms & HMs & Hsum).
  { eapply (blocks_loop_totals a b (chain_b b) (chain_b_sound b));
      [| | | |exact Hloop].
    - intros alo ahi blo bhi _ _. unfold window_bound. lia.
    - intros alo ahi blo bhi _ _. unfold window_bound. lia.
    - intros alo ahi blo bhi i j k M1 M2 Hw Hflm Hk.
      pose proof (window_ok_block a b (chain_b b) (chain_b_sound b)
                    _ _ _ _ Hw) as Hb.
      rewrite Hflm in Hb. destruct Hb as (? & ? & ? & ? & _).
      unfold window_bound. lia.
    - constructor; [apply whole_window_ok|constructor]. }
  apply Forall2_cons_inv_l in HMs as (M & ? & HM & Hnil & ->).
    apply Forall2_nil_inv_l in Hnil as ->.
    simpl in Hsum. unfold window_bound in HM. lia.
Qed.

Lemma calculate_ratio_pos M T :
  T ≠ 0 →
  (calculate_ratio M T == Z.of_nat (2 * M) # Pos.of_nat T)%Q.
Proof.
  intros HT. unfold calculate_ratio. rewrite decide_False by done.
  destruct T as [|T]; [done|].
  unfold Qeq, Qdiv, Qmult, Qinv, inject_Z. simpl Qnum. simpl Qden.
  rewrite <- Pos.of_nat_succ. lia.
Qed.

Lemma ratio_total a b : is_Some (ratio a b).
Proof.
  unfold ratio. destruct (matches_total a b) as [M ->]. simpl. eauto.
Qed.
End matches_facts.

Section identical_sequences.
Context `{Countable A}.
Import Difflib.
Context (a : list A) (b2j : gmap A (list nat)).
Hypothesis Hsound : b2j_sound a b2j.

Local Abbreviation run := (run a a b2j 0 0).
Local Abbreviation hit := (hit a a b2j 0 0).

Lemma hit_diag i j : hit i j = true → hit i i = true ∧ hit j j = true.
Proof.
  rewrite !hit_true. intros (_ & _ & x & Hi & Hj & Hx).
  split; (split_and!; [lia..|eauto]).
Qed.

(** A run between two copies of the same sequence is no longer than
    the runs on the diagonal through either of its ends. *)
Lemma run_diag i j : run i j ≤ run j j ∧ run i j ≤ run i i.
Proof.
  revert j. induction i as [|i IH]; intros j.
  - rewrite !(run_unfold _ _ _ _ _ 0).
    destruct (hit 0 j) eqn:Hh; [|lia].
    destruct (hit_diag _ _ Hh) as [-> Hj]. simpl.
    rewrite (run_unfold _ _ _ _ _ j j), Hj. lia.
  - rewrite !(run_unfold _ _ _ _ _ (S i)).
    destruct (hit (S i) j) eqn:Hh; [|lia].
    destruct (hit_diag _ _ Hh) as [-> Hj].
    rewrite (run_unfold _ _ _ _ _ j j), Hj.
    destruct j as [|j]; simpl; [lia|].
    destruct (IH j). lia.
Qed.

Lemma scan_diag n :
  ((scan a b2j 0 n 0 n).2).1.1 = ((scan a b2j 0 n 0 n).2).1.2.
Proof.
  destruct (scan_best_inv a a b2j 0 0 n Hsound n ltac:(lia))
    as [_ [->|(i & j & (_ & Hj & Hi) & Hpos & -> & Hfirst)]]; [done|].
  simpl. destruct (run_diag i j) as [Hjj Hii].
  destruct (decide (i = j)) as [->|Hne]; [done|exfalso].
  destruct (decide (j < i)).
  - specialize (Hfirst j j). lia.
  - specialize (Hfirst i i). lia.
Qed.

Lemma same_at_diag i : i < length a → same_at a a i i = true.
Proof.
  intros [x Hx]%lookup_lt_is_Some. unfold same_at. rewrite Hx.
  by apply bool_decide_eq_true.
Qed.

Lemma extend_left_diag d k :
  d ≤ length a → extend_left false a a 0 0 d d k = (0, 0, k + d).
Proof.
  revert k. induction d as [|d IH]; intros k Hd; simpl.
  - by rewrite Nat.add_0_r.
  - rewrite same_at_diag by lia.
    rewrite (same_at_junk_false a a d d) by (apply same_at_diag; lia).
    simpl. rewrite IH by lia. f_equal. lia.
Qed.

Lemma extend_right_diag fuel k :
  k + fuel = length a →
  extend_right false a a (length a) (length a) 0 0 fuel k = length a.
Proof.
  revert k. induction fuel as [|fuel IH]; intros k Hk; simpl; [lia|].
  rewrite same_at_diag by lia.
  rewrite (same_at_junk_false a a k k) by (apply same_at_diag; lia).
  rewrite !bool_decide_eq_true_2 by lia. simpl. apply IH. lia.
Qed.

(** On two copies of a sequence the longest match is the whole of it. *)
Lemma find_longest_match_diag :
  find_longest_match a a b2j 0 (length a) 0 (length a)
  = (0, 0, length a).
Proof.
  unfold find_longest_match. rewrite extend_true.
  pose proof (scan_diag (length a)) as Hd.
  pose proof (scan_block a a b2j 0 0 (length a) Hsound (length a)
                ltac:(lia) ltac:(lia)) as Hb.
  destruct (scan a b2j 0 (length a) 0 (length a)) as [? [[d d'] k]].
  simpl in Hd. subst d'. destruct Hb as (_ & ? & _).
  unfold extend. simpl. rewrite extend_left_diag by lia.
  rewrite extend_right_diag by lia. done.
Qed.
End identical_sequences.

Section ratio_identical.
Context `{Countable A}.
Import Difflib.

Lemma matches_diag (a : list A) : matches a a = Some (length a).
Proof.
  destruct (matches_blocks a a) as (blocks & Hloop & ->). f_equal.
  revert Hloop. rewrite Nat.add_1_r. simpl. unfold process.
  rewrite find_longest_match_diag by apply chain_b_sound.
  destruct (decide (length a = 0)) as [->|Hn].
  - simpl. by intros [= <-].
  - rewrite !decide_False by lia. simpl.
    destruct (length a + _); intros [= <-]; simpl;
      unfold match_size; simpl; lia.
Qed.
End ratio_identical.

Section slice_facts.
Context {A : Type}.
Import Difflib.
Implicit Types l m : list A.

Lemma slice_lookup l lo hi t :
  slice l lo hi !! t = if decide (t < hi - lo) then l !! (lo + t) else None.
Proof.
  unfold slice. case_decide.
  - by rewrite lookup_take_lt, lookup_drop.
  - rewrite lookup_take_ge; [done|lia].
Qed.

Lemma slice_length l lo hi :
  hi ≤ length l → length (slice l lo hi) = hi - lo.
Proof. intros. unfold slice. rewrite length_take, length_drop. lia. Qed.

Lemma slice_empty l lo : slice l lo lo = [].
Proof. unfold slice. by rewrite Nat.sub_diag. Qed.

Lemma slice_app l lo mid hi :
  lo ≤ mid → mid ≤ hi → slice l lo hi = slice l lo mid ++ slice l mid hi.
Proof.
  intros. unfold slice.
  replace (hi - lo) with ((mid - lo) + (hi - mid)) by lia.
  rewrite <- take_take_drop, drop_drop. do 3 f_equal. lia.
Qed.

Lemma elem_of_slice l lo hi x :
  x ∈ slice l lo hi ↔ ∃ t, lo ≤ t ∧ t < hi ∧ l !! t = Some x.
Proof.
  rewrite list_elem_of_lookup. split.
  - intros [t Ht]. rewrite slice_lookup in Ht. case_decide; [|done].
    exists (lo + t). split_and!; [lia..|done].
  - intros (t & ? & ? & Ht). exists (t - lo). rewrite slice_lookup.
    rewrite decide_True by lia. by replace (lo + (t - lo)) with t by lia.
Qed.

Lemma substring_slice m l lo hi :
  lo ≤ hi → hi ≤ length l → substring m (slice l lo hi) →
  ∃ i, lo ≤ i ∧ i + length m ≤ hi ∧
    ∀ t, t < length m → l !! (i + t) = m !! t.
Proof.
  intros Hlo Hhi (l1 & l2 & Heq).
  assert (length (slice l lo hi) = length l1 + length m + length l2) as Hlen.
  { rewrite Heq, !length_app. lia. }
  rewrite slice_length in Hlen by done.
  exists (lo + length l1). split_and!; [lia..|].
  intros t Ht.
  assert (slice l lo hi !! (length l1 + t) = m !! t) as Hl.
  { rewrite Heq, lookup_app_r by lia.
    replace (length l1 + t - length l1) with t by lia.
    by rewrite lookup_app_l. }
  rewrite slice_lookup, decide_True in Hl by lia.
  by rewrite <- Hl, Nat.add_assoc.
Qed.
End slice_facts.

Section alignment_facts.
Context `{Countable A}.
Import Difflib.
Context (a b : list A) (b2j : gmap A (list nat)).
Hypothesis Hsound : b2j_sound b b2j.
Hypothesis Hcomplete : b2j_complete b b2j.

Lemma same_at_lookup i j :
  same_at a b i j = true → ∃ x, a !! i = Some x ∧ b !! j = Some x.
Proof.
  unfold same_at. destruct (a !! i) as [x|], (b !! j) as [y|]; try done.
  intros ->%bool_decide_eq_true. eauto.
Qed.

Lemma lookup_same_at i j x :
  a !! i = Some x → b !! j = Some x → same_at a b i j = true.
Proof.
  intros Ha Hb. unfold same_at. rewrite Ha, Hb.
  by apply bool_decide_eq_true.
Qed.

(** The two sides of a block are the same list. *)
Lemma block_slices w i j k :
  common_block a b w (i, j, k) → slice a i (i + k) = slice b j (j + k).
Proof.
  destruct w as [[[alo ahi] blo] bhi]. intros (_ & _ & _ & _ & Hsame).
  apply list_eq. intros t. rewrite !slice_lookup.
  replace (i + k - i) with k by lia. replace (j + k - j) with k by lia.
  case_decide; [|done].
  destruct (same_at_lookup _ _ (Hsame t ltac:(lia))) as (x & -> & ->).
  done.
Qed.

(** A list that occurs in both sides of the window is a block of it. *)
Lemma substring_block alo ahi blo bhi m :
  window_ok a b (alo, ahi, blo, bhi) →
  substring m (slice a alo ahi) → substring m (slice b blo bhi) →
  ∃ i j, common_block a b (alo, ahi, blo, bhi) (i, j, length m).
Proof.
  intros (? & ? & ? & ?) Ha Hb.
  apply substring_slice in Ha as (i & ? & ? & Hai); [|done..].
  apply substring_slice in Hb as (j & ? & ? & Hbj); [|done..].
  exists i, j. unfold common_block. split_and!; [done..|].
  intros t Ht. destruct (lookup_lt_is_Some_2 m t Ht) as [x Hx].
  apply (lookup_same_at _ _ x); [by rewrite Hai|by rewrite Hbj].
Qed.

Lemma alignment_none alo ahi blo bhi :
  window_ok a b (alo, ahi, blo, bhi) →
  (find_longest_match a b b2j alo ahi blo bhi).2 = 0 →
  window_alignment a b (alo, ahi, blo, bhi) 0.
Proof.
  intros Hw Hk. apply align_none.
  intros x (i & ? & ? & Hi)%elem_of_slice (j & ? & ? & Hj)%elem_of_slice.
  destruct Hw as (? & ? & ? & ?).
  assert (1 ≤ (find_longest_match a b b2j alo ahi blo bhi).2) as Hle.
  { apply (find_longest_match_longest a b b2j Hsound alo ahi blo bhi i j 1);
      [done..|].
    unfold common_block. split_and!; [lia..|].
    intros t Ht. replace t with 0 by lia. rewrite !Nat.add_0_r.
    by apply (lookup_same_at _ _ x). }
  lia.
Qed.

Lemma alignment_empty alo ahi blo bhi :
  alo = ahi ∨ blo = bhi → window_alignment a b (alo, ahi, blo, bhi) 0.
Proof.
  intros Hempty. apply align_none. intros x Ha Hb.
  destruct Hempty as [->| ->]; rewrite slice_empty in *;
    by eapply elem_of_nil.
Qed.

Lemma alignment_block alo ahi blo bhi i j k M1 M2 :
  window_ok a b (alo, ahi, blo, bhi) →
  find_longest_match a b b2j alo ahi blo bhi = (i, j, k) → k ≠ 0 →
  window_alignment a b (alo, i, blo, j) M1 →
  window_alignment a b (i + k, ahi, j + k, bhi) M2 →
  window_alignment a b (alo, ahi, blo, bhi) (k + M1 + M2).
Proof.
  intros Hw Hflm Hk HM1 HM2. unfold window_alignment in *.
  pose proof (window_ok_block a b b2j Hsound _ _ _ _ Hw) as Hb.
  rewrite Hflm in Hb. pose proof (block_slices _ _ _ _ Hb) as Hm.
  pose proof Hw as (? & ? & ? & ?). pose proof Hb as (? & ? & ? & ? & _).
  assert (length (slice a i (i + k)) = k) as Hlen.
  { rewrite slice_length by lia. lia. }
  assert (slice a alo ahi
          = slice a alo i ++ slice a i (i + k) ++ slice a (i + k) ahi) as Ea.
  { rewrite (slice_app a alo i ahi) by lia. f_equal.
    apply slice_app; lia. }
  assert (slice b blo bhi
          = slice b blo j ++ slice a i (i + k) ++ slice b (j + k) bhi) as Eb.
  { rewrite (slice_app b blo j bhi), Hm by lia. f_equal.
    apply slice_app; lia. }
  set (m := slice a i (i + k)) in *.
  replace (k + M1 + M2) with (length m + M1 + M2) by lia.
  rewrite Ea, Eb.
  apply align_block; [|split_and!|done..].
  - intros Hnil. rewrite Hnil in Hlen. simpl in Hlen. lia.
  - by eexists _, _.
  - by eexists _, _.
  - intros m' Ha' Hb'. rewrite <- Ea in Ha'. rewrite <- Eb in Hb'.
    destruct (substring_block _ _ _ _ _ Hw Ha' Hb') as (i' & j' & Hblock).
    rewrite Hlen.
    change k with (i, j, k).2. rewrite <- Hflm.
    eapply find_longest_match_longest; eauto.
Qed.
End alignment_facts.

Section matches_alignment.
Context `{Countable A}.
Import Difflib.

Lemma slice_whole (l : list A) : slice l 0 (length l) = l.
Proof. unfold slice. by rewrite Nat.sub_0_r, firstn_all. Qed.

(** When no element of [b] is popular the matched total is a total of
    the specification's alignment. *)
Lemma matches_alignment (a b : list A) :
  no_popular b →
  ∃ M, matches a b = Some M ∧ spec_alignment a b M.
Proof.
  intros Hb. destruct (matches_blocks a b) as (blocks & Hloop & ->).
  eexists. split; [done|].
  assert (∃ Ms, Forall2 (window_alignment a b) [(0, length a, 0, length b)] Ms
                ∧ sum_sizes blocks = sum_sizes [] + sum_list Ms)
    as (Ms & HMs & Hsum).
  { eapply (blocks_loop_totals a b (chain_b b) (chain_b_sound b));
      [| | | |exact Hloop].
    - apply alignment_none;
        [apply chain_b_sound|by apply chain_b_complete].
    - intros ? ? ? ? _. apply alignment_empty.
    - apply alignment_block;
        [apply chain_b_sound|by apply chain_b_complete].
    - constructor; [apply whole_window_ok|constructor]. }
  apply Forall2_cons_inv_l in HMs as (M & ? & HM & Hnil & ->).
  apply Forall2_nil_inv_l in Hnil as ->.
  simpl in Hsum. unfold window_alignment in HM.
  rewrite !slice_whole in HM. by replace (sum_sizes blocks) with M by lia.
Qed.
End matches_alignment.

(** * The similarity score *)

Section ratio_facts.
Context `{Countable A}.
Import Difflib.
Implicit Types a b : list A.

Lemma Zpos_of_nat T : T ≠ 0 → Z.pos (Pos.of_nat T) = Z.of_nat T.
Proof.
  intros HT. rewrite <- (Nat2Pos.id T) at 2 by done.
  by rewrite positive_nat_Z.
Qed.

Lemma ratio_matches a b M :
  matches a b = Some M →
  ratio a b = Some (calculate_ratio M (length a + length b)).
Proof. unfold ratio. by intros ->. Qed.

Lemma calculate_ratio_range M T :
  2 * M ≤ T → (0 <= calculate_ratio M T)%Q ∧ (calculate_ratio M T <= 1)%Q.
Proof.
  intros HM. destruct (decide (T = 0)) as [->|HT].
  - unfold calculate_ratio. simpl. split; [done|apply Qle_refl].
  - rewrite calculate_ratio_pos by done.
    unfold Qle. simpl Qnum. simpl Qden. rewrite Zpos_of_nat by done. lia.
Qed.

Lemma ratio_identical a : ∃ q, ratio a a = Some q ∧ (q == 1)%Q.
Proof.
  eexists. split; [apply ratio_matches, matches_diag|].
  destruct (decide (length a + length a = 0)) as [E|HT].
  - unfold calculate_ratio. by rewrite decide_True.
  - rewrite calculate_ratio_pos by done.
    unfold Qeq. simpl Qnum. simpl Qden. rewrite Zpos_of_nat by done. lia.
Qed.

Lemma ratio_range a b :
  ∃ q, ratio a b = Some q ∧ (0 <= q)%Q ∧ (q <= 1)%Q.
Proof.
  destruct (matches_total a b) as [M HM].
  destruct (matches_bound a b M HM).
  eexists. split; [by apply ratio_matches|].
  apply calculate_ratio_range. lia.
Qed.

Lemma ratio_alignment a b :
  no_popular b →
  ∃ M, spec_alignment a b M ∧
       ratio a b = Some (calculate_ratio M (length a + length b)).
Proof.
  intros (M & HM & Halign)%(matches_alignment a b).
  exists M. split; [done|by apply ratio_matches].
Qed.

(** An alignment of two sequences that share an element matches
    something. *)
Lemma spec_alignment_pos a b M x :
  spec_alignment a b M → x ∈ a → x ∈ b → 0 < M.
Proof.
  intros Halign Ha Hb. inversion Halign as [? ? Hnone|? ? ? ? m ? ? Hm];
    subst.
  - by destruct (Hnone x Ha).
  - destruct m; [done|simpl; lia].
Qed.
End ratio_facts.

Lemma similarity_ratio x y :
  Difflib.ratio (chars x) (chars y) = Some (similarity x y).
Proof.
  unfold similarity.
  by destruct (ratio_total (chars x) (chars y)) as [q ->].
Qed.

(** C4. For every string [a], [similarity(a, a) == 1.0]; this includes the
    empty string, for which the score is defined to be [1.0]. *)
Theorem similarity_identical (a : string) :
  (similarity a a == 1)%Q ∧ similarity "" "" = 1%Q.
Proof.
  split; [|done].
  destruct (ratio_identical (chars a)) as (q & Hq & Hone).
  rewrite similarity_ratio in Hq. by injection Hq as ->.
Qed.

(** C8, as stated, fails: the score depends on the order of the two
    strings. *)
Lemma similarity_not_symmetric :
  ¬ (∀ a b : string,
       (similarity a b == similarity b a)%Q ∧
       (0 <= similarity a b)%Q ∧ (similarity a b <= 1)%Q).
Proof.
  intros Hsym. destruct (Hsym "tide" "diet") as [Heq _].
  vm_compute in Heq. discriminate Heq.
Qed.

(** C8, amended. For all strings [a] and [b] the score lies in [[0, 1]]. *)
Theorem similarity_range (a b : string) :
  (0 <= similarity a b)%Q ∧ (similarity a b <= 1)%Q.
Proof.
  destruct (ratio_range (chars a) (chars b)) as (q & Hq & Hrange).
  rewrite similarity_ratio in Hq. by injection Hq as ->.
Qed.

Lemma quotient_Qmake M T :
  T ≠ 0 →
  (2 * inject_Z (Z.of_nat M) / inject_Z (Z.of_nat T)
   == Z.of_nat (2 * M) # Pos.of_nat T)%Q.
Proof.
  intros HT. rewrite <- (calculate_ratio_pos M T HT).
  unfold Difflib.calculate_ratio. by rewrite decide_False.
Qed.

(** C1, as stated, fails: when the second string has 200 characters or
    more, its popular characters are left out of the search for the
    longest common substring.  Here the only character of ["b"] occurs in
    the second string, yet nothing is matched. *)
Lemma similarity_alignment_fails :
  ¬ (∀ a b : string, ∃ M,
       Difflib.spec_alignment (chars a) (chars b) M ∧
       (similarity a b
        == 2 * inject_Z (Z.of_nat M)
           / inject_Z (Z.of_nat (length (chars a) + length (chars b))))%Q).
Proof.
  intros Hclaim. destruct (Hclaim "b" popular_name) as (M & Halign & Heq).
  assert (0 < M) as HM.
  { eapply spec_alignment_pos; [exact Halign|vm_compute..].
    - apply list_elem_of_here.
    - apply list_elem_of_further, list_elem_of_here. }
  rewrite quotient_Qmake in Heq by (vm_compute; lia).
  assert (similarity "b" popular_name == 0)%Q as Hzero by (by vm_compute).
  rewrite Hzero in Heq. unfold Qeq in Heq. simpl in Heq. lia.
Qed.

(** C1, amended. For every pair of strings [a] and [b] in which [b] has
    no popular character, that is, [b] is shorter than 200 characters or
    none of its characters occurs more than [len(b) // 100 + 1] times,
    the score is [2*M / (len(a) + len(b))] ([1.0] when both strings are
    empty), where [M] is the total of the matched lengths of the
    recursive alignment on longest common contiguous substrings. *)
Theorem similarity_alignment (a b : string) :
  Difflib.no_popular (chars b) →
  ∃ M, Difflib.spec_alignment (chars a) (chars b) M ∧
       (similarity a b
        == if decide ((length (chars a) + length (chars b))%nat = 0%nat) then 1
           else 2 * inject_Z (Z.of_nat M)
                / inject_Z (Z.of_nat (length (chars a) + length (chars b))))%Q.
Proof.
  intros (M & Halign & Hratio)%(ratio_alignment (chars a)).
  exists M. split; [done|].
  rewrite similarity_ratio in Hratio. injection Hratio as ->.
  apply Qeq_refl.
Qed.

Lemma similarity_alignment_witness :
  ∃ M, Difflib.spec_alignment (chars "abxcd") (chars "abcd") M ∧
       (similarity "abxcd" "abcd"
        == if decide ((length (chars "abxcd") + length (chars "abcd"))%nat
                      = 0%nat)
           then 1
           else 2 * inject_Z (Z.of_nat M)
                / inject_Z (Z.of_nat (length (chars "abxcd")
                                      + length (chars "abcd"))))%Q.
Proof. apply (similarity_alignment "abxcd" "abcd"). left. simpl. lia. Defined.

(** * The range validator *)

Section range_texts.
Import RangeConfigurator RangeValidator.

Lemma utf8_decode_ascii b rest :
  (b <? 128)%N = true → utf8_decode (b :: rest) = b :: utf8_decode rest.
Proof. intros Hb. simpl. by rewrite Hb. Qed.

(** The characters ["0"] to ["9"] are one byte each, digits and decimal
    digits of the value the specification reads. *)
Lemma literal_digit_spec c :
  literal_digit c = true →
  (Ascii.N_of_ascii c <? 128)%N = true ∧
  is_digit (Ascii.N_of_ascii c) = true ∧
  to_decimal (Ascii.N_of_ascii c)
  = Some (Z.to_N (Z.of_nat (Ascii.nat_of_ascii c) - 48)).
Proof.
  destruct c as [[] [] [] [] [] [] [] []]; vm_compute; intros Hc;
    by try discriminate Hc.
Qed.

Lemma literal_digit_range c :
  literal_digit c = true →
  (48 ≤ Z.of_nat (Ascii.nat_of_ascii c) ≤ 57)%Z.
Proof.
  unfold literal_digit. intros [H1 H2]%andb_true_iff.
  apply Nat.leb_le in H1, H2. lia.
Qed.

Lemma code_points_literal l :
  forallb literal_digit l = true →
  utf8_decode (Ascii.N_of_ascii <$> l) = Ascii.N_of_ascii <$> l.
Proof.
  induction l as [|c l IH]; [done|]. cbn [forallb].
  intros [Hc Hl]%andb_true_iff. rewrite fmap_cons.
  destruct (literal_digit_spec c Hc) as (Hb & _).
  by rewrite utf8_decode_ascii, IH.
Qed.

Lemma forallb_is_digit_literal l :
  forallb literal_digit l = true →
  forallb is_digit (Ascii.N_of_ascii <$> l) = true.
Proof.
  induction l as [|c l IH]; [done|]. cbn [forallb].
  intros [Hc Hl]%andb_true_iff. rewrite fmap_cons. cbn [forallb].
  destruct (literal_digit_spec c Hc) as (_ & -> & _). by rewrite IH.
Qed.

Lemma chars_nil_inv s : chars s = [] → s = "".
Proof. by destruct s. Qed.

Lemma literal_isdigit s : literal s = true → isdigit s = true.
Proof.
  unfold literal, isdigit, code_points.
  intros [Hne Hl]%andb_true_iff.
  rewrite code_points_literal, forallb_is_digit_literal, andb_true_r by done.
  apply negb_true_iff, bool_decide_eq_false in Hne.
  apply negb_true_iff, bool_decide_eq_false.
  intros Hnil%fmap_nil_inv. by apply Hne, chars_nil_inv.
Qed.

Lemma digits_value_literal l acc :
  forallb literal_digit l = true →
  foldl (λ acc c,
           n ← acc; d ← to_decimal c; Some (10 * n + Z.of_N d)%Z)
    (Some acc) (Ascii.N_of_ascii <$> l)
  = Some (foldl (λ acc c,
                   10 * acc + (Z.of_nat (Ascii.nat_of_ascii c) - 48))%Z
            acc l).
Proof.
  revert acc. induction l as [|c l IH]; intros acc; [done|].
  cbn [forallb]. intros [Hc Hl]%andb_true_iff. rewrite fmap_cons.
  cbn [foldl]. destruct (literal_digit_spec c Hc) as (_ & _ & ->).
  pose proof (literal_digit_range c Hc). simpl.
  rewrite Z2N.id by lia. by apply IH.
Qed.

(** On a literal within the limit of [int], [int] reads the number the
    specification reads. *)
Lemma literal_int s :
  literal s = true → length (chars s) ≤ int_max_str_digits →
  int s = Some (value s).
Proof.
  unfold literal, int, value, code_points, digits_value.
  intros [Hne Hl]%andb_true_iff Hlen.
  rewrite code_points_literal by done.
  apply negb_true_iff, bool_decide_eq_false in Hne.
  rewrite bool_decide_eq_false_2.
  - rewrite bool_decide_eq_false_2 by (rewrite length_fmap; lia).
    by apply digits_value_literal.
  - intros Hnil%fmap_nil_inv. by apply Hne, chars_nil_inv.
Qed.

Lemma readable_isdigit s : readable s → isdigit s = literal s.
Proof.
  intros Hs. destruct (isdigit s) eqn:Hd.
  - symmetry. by apply Hs.
  - destruct (literal s) eqn:Hl; [|done].
    apply literal_isdigit in Hl. congruence.
Qed.

Lemma readable_int s :
  readable s → isdigit s = true → int s = Some (value s).
Proof. intros Hs Hd. destruct (Hs Hd). by apply literal_int. Qed.

Lemma digits_value_nonneg cps acc n :
  (0 ≤ acc)%Z →
  foldl (λ acc c,
           n ← acc; d ← to_decimal c; Some (10 * n + Z.of_N d)%Z)
    (Some acc) cps = Some n →
  (0 ≤ n)%Z.
Proof.
  revert acc. induction cps as [|c cps IH]; intros acc Hacc; simpl.
  - by intros [= <-].
  - destruct (to_decimal c) as [d|]; simpl.
    + apply IH. lia.
    + clear. induction cps as [|c' cps IH]; simpl; [done|exact IH].
Qed.

Lemma int_nonneg s n : int s = Some n → (0 ≤ n)%Z.
Proof.
  unfold int. repeat case_bool_decide; try done.
  by apply digits_value_nonneg.
Qed.
End range_texts.

Section range_validator.
Import RangeConfigurator RangeValidator.
Implicit Types (entry : string * string * string).
Implicit Types (entries : list (string * string * string)).

Lemma get_ranges_loop_app entries1 entries2 st :
  get_ranges_loop (entries1 ++ entries2) st
  = st' ← get_ranges_loop entries1 st; get_ranges_loop entries2 st'.
Proof.
  revert st. induction entries1 as [|entry entries1 IH]; intros st; [done|].
  simpl. destruct (get_ranges_step st entry) as [st'|]; simpl; [apply IH|done].
Qed.

(** A triple that reaches [int] with a minimum that [int] rejects
    raises, whatever has been collected. *)
Lemma get_ranges_step_raises st min_val max_val dir_name :
  isdigit min_val = true → int min_val = None →
  max_val = "inf" ∨ isdigit max_val = true → dir_name ≠ "" →
  get_ranges_step st (min_val, max_val, dir_name) = None.
Proof.
  intros Hmin Hint Hmax Hdir. destruct st as [ranges errors].
  unfold get_ranges_step. rewrite Hmin, Hint. simpl.
  rewrite (bool_decide_eq_false_2 (dir_name = "")) by done.
  destruct Hmax as [-> | ->]; [done|]. by rewrite andb_false_r.
Qed.

(** On readable texts a turn of the loop adds what the specification
    says the triple contributes. *)
Lemma get_ranges_step_spec st entry :
  readable_entry entry →
  get_ranges_step st entry
  = Some (st.1 ++ ranges_of entry, st.2 ++ errors_of entry).
Proof.
  destruct st as [ranges errors], entry as [[min_val max_val] dir_name].
  intros [Hmin Hmax]. simpl in Hmin, Hmax.
  unfold get_ranges_step, ranges_of, errors_of, violations,
    max_ok, parse, parse_max.
  rewrite (readable_isdigit _ Hmin), (readable_isdigit _ Hmax).
  destruct (literal min_val) eqn:Hlmin; simpl;
    [|by rewrite app_nil_r].
  rewrite (readable_int min_val Hmin)
    by (by rewrite (readable_isdigit _ Hmin)).
  destruct (bool_decide (max_val = "inf")); simpl.
  - destruct (bool_decide (dir_name = EmptyString)); simpl;
      by rewrite ?app_nil_r.
  - destruct (literal max_val) eqn:Hlmax; simpl;
      [|by rewrite app_nil_r].
    rewrite (readable_int max_val Hmax)
      by (by rewrite (readable_isdigit _ Hmax)).
    destruct (bool_decide (dir_name = EmptyString)); simpl;
      [by rewrite app_nil_r|].
    case_bool_decide; simpl; by rewrite ?app_nil_r.
Qed.

Lemma get_ranges_loop_spec st entries :
  Forall readable_entry entries →
  get_ranges_loop entries st
  = Some (st.1 ++ flat_map ranges_of entries,
          st.2 ++ flat_map errors_of entries).
Proof.
  intros Hentries. revert st.
  induction Hentries as [|entry entries Hentry _ IH]; intros st; simpl.
  - rewrite !app_nil_r. by destruct st.
  - rewrite get_ranges_step_spec by done. simpl.
    rewrite IH. simpl. by rewrite <- !app_assoc.
Qed.

Lemma get_ranges_flat_map entries :
  Forall readable_entry entries →
  get_ranges entries
  = Some (flat_map ranges_of entries, flat_map errors_of entries).
Proof. intros Hentries. unfold get_ranges. by rewrite get_ranges_loop_spec. Qed.

Lemma ranges_errors_of entry :
  (valid entry ∧ ranges_of entry = [parse entry] ∧ errors_of entry = [])
  ∨ (¬ valid entry ∧ ranges_of entry = [] ∧
     ∃ m, head (violations entry) = Some m ∧ errors_of entry = [m]).
Proof.
  unfold ranges_of, errors_of, valid.
  destruct (violations entry) as [|m ?]; [by left|].
  right. split_and!; [done..|]. by exists m.
Qed.

Lemma flat_map_ranges_of entries :
  flat_map ranges_of entries = parse <$> filter valid entries.
Proof.
  induction entries as [|entry entries IH]; [done|]. simpl.
  rewrite filter_cons, IH.
  destruct (ranges_errors_of entry) as [(Hv & -> & _)|(Hv & -> & _)].
  - by rewrite decide_True.
  - by rewrite decide_False.
Qed.

Lemma flat_map_length_sum entries :
  length (flat_map ranges_of entries) + length (flat_map errors_of entries)
  = length entries.
Proof.
  induction entries as [|entry entries IH]; [done|]. simpl.
  rewrite !length_app.
  destruct (ranges_errors_of entry)
    as [(_ & -> & ->)|(_ & -> & m & _ & ->)]; simpl; lia.
Qed.
End range_validator.

Section range_validator_claims.
Import RangeConfigurator RangeValidator.
Implicit Types (entry : string * string * string).
Implicit Types (entries : list (string * string * string)).

(** C5. The validator can fail fast.  A triple whose minimum passes
    [isdigit] and is rejected by [int] (the superscript two is such a
    text), and which passes the checks of the maximum and of the label,
    makes [get_ranges] raise [ValueError]: the call returns no pair
    [(ranges, errors)], the triples after it are not checked and the
    violations collected from the triples before it are lost. *)
Theorem get_ranges_fails_fast before min_val max_val dir_name after :
  isdigit min_val = true → int min_val = None →
  max_val = "inf" ∨ isdigit max_val = true → dir_name ≠ "" →
  get_ranges (before ++ (min_val, max_val, dir_name) :: after) = None.
Proof.
  intros Hmin Hint Hmax Hdir. unfold get_ranges.
  rewrite get_ranges_loop_app.
  destruct (get_ranges_loop before ([], [])) as [st|]; simpl; [|done].
  by rewrite get_ranges_step_raises.
Qed.

Lemma get_ranges_fails_fast_witness :
  get_ranges [("10", "5", "A")] = Some ([], [BadRange 10 (Fin 5)]) ∧
  get_ranges ([("10", "5", "A")] ++ ("²", "5", "A") :: [("500", "abc", "B")])
  = None.
Proof.
  split; [by vm_compute|].
  apply (get_ranges_fails_fast [("10", "5", "A")] "²" "5" "A"
           [("500", "abc", "B")]).
  - by vm_compute.
  - by vm_compute.
  - right. by vm_compute.
  - done.
Defined.

(** C9. A triple can have no outcome at all.  For the one triple
    [("²", "5", "A")] the minimum passes [isdigit], [int] rejects it,
    and [get_ranges] returns neither a range nor an error message: the
    [ValueError] of [int] leaves it. *)
Theorem get_ranges_no_outcome :
  isdigit "²" = true ∧ int "²" = None ∧
  get_ranges [("²", "5", "A")] = None.
Proof. by vm_compute. Qed.
End range_validator_claims.

(** * Comparisons and buckets *)

Lemma Qltb_lt x y : Qltb x y = true ↔ (x < y)%Q.
Proof.
  unfold Qltb. rewrite negb_true_iff, <- not_true_iff_false, Qle_bool_iff.
  split; [apply Qnot_le_lt|apply Qlt_not_le].
Qed.

Lemma Qleb_le x y : Qleb x y = true ↔ (x <= y)%Q.
Proof. apply Qle_bool_iff. Qed.

(** [in_range] is [min <= size < max], with [inf] above every size. *)
Lemma in_range_spec min_size max_size dir_name size :
  in_range (min_size, max_size, dir_name) size = true ↔
  (inject_Z min_size <= size)%Q ∧
  match max_size with
  | Fin n => (size < inject_Z n)%Q
  | Inf => True
  end.
Proof.
  unfold in_range. simpl. rewrite andb_true_iff, Qleb_le.
  destruct max_size; [by rewrite Qltb_lt|tauto].
Qed.

Lemma get_target_dir_first ranges size :
  (∃ pre r post,
     ranges = pre ++ r :: post ∧
     Forall (λ r', in_range r' size = false) pre ∧
     in_range r size = true ∧
     FileClassifier.get_target_dir ranges size = Some (dir_name_of r) ∧
     ReportGenerator.get_target_dir ranges size = dir_name_of r)
  ∨ (Forall (λ r', in_range r' size = false) ranges ∧
     FileClassifier.get_target_dir ranges size = None ∧
     ReportGenerator.get_target_dir ranges size
     = ReportGenerator.unclassified).
Proof.
  induction ranges as [|r ranges IH]; simpl.
  - right. split; [constructor|done].
  - destruct (in_range r size) eqn:Hr.
    + left. exists [], r, ranges. split_and!; [done|constructor|done..].
    + destruct IH as [(pre & r' & post & -> & Hpre & Hr' & Hc & Hg)|(? & ? & ?)].
      * left. exists (r :: pre), r', post.
        split_and!; [done|by constructor|done..].
      * right. split; [by constructor|done].
Qed.

Lemma get_target_dir_label ranges size target_dir :
  FileClassifier.get_target_dir ranges size = Some target_dir →
  target_dir ∈ map dir_name_of ranges.
Proof.
  induction ranges as [|r ranges IH]; simpl; [done|].
  destruct (in_range r size).
  - intros [= <-]. apply list_elem_of_here.
  - intros ?%IH. by apply list_elem_of_further.
Qed.

(** * The classify engine *)

Lemma find_project_folder_first fs project_name :
  (∃ pre folder children post,
     fs = pre ++ (folder, Dir children) :: post ∧
     Forall (λ en, ¬ over_threshold project_name en) pre ∧
     (8 # 10 < similarity project_name folder)%Q ∧
     FileClassifier.find_project_folder fs project_name = Some folder)
  ∨ (Forall (λ en, ¬ over_threshold project_name en) fs ∧
     FileClassifier.find_project_folder fs project_name = None).
Proof.
  induction fs as [|[folder n] fs IH]; simpl.
  - right. split; [constructor|done].
  - assert (isdir n = false ∨
            Qltb (8 # 10) (similarity project_name folder) = false →
            ¬ over_threshold project_name (folder, n)) as Hno.
    { intros Hor [Hd Hs]. simpl in *. apply Qltb_lt in Hs.
      destruct Hor; congruence. }
    destruct n as [|children]; simpl in *.
    + destruct IH as [(pre & f & c & post & -> & Hpre & Hf & Hfind)|[? ?]].
      * left. exists ((folder, File) :: pre), f, c, post.
        split_and!; [done|constructor; auto|done..].
      * right. split; [constructor; auto|done].
    + destruct (Qltb _ _) eqn:Hs.
      * left. exists [], folder, children, fs.
        split_and!; [done|constructor| by apply Qltb_lt|done].
      * destruct IH as [(pre & f & c & post & -> & Hpre & Hf & Hfind)|[? ?]].
        -- left. exists ((folder, Dir children) :: pre), f, c, post.
           split_and!; [done|constructor; auto|done..].
        -- right. split; [constructor; auto|done].
Qed.

(** C3. The folder matched for a record is the first directory of the
    base directory, in the order of the listing, whose name scores above
    0.8 against the name of the record; and when no directory does, the
    record has no effect at all: the run goes on with the base directory
    as it was. *)
Theorem classify_first_over_threshold ranges fs project_name :
  (∃ pre folder children post,
     fs = pre ++ (folder, Dir children) :: post ∧
     Forall (λ en, ¬ over_threshold project_name en) pre ∧
     (8 # 10 < similarity project_name folder)%Q ∧
     FileClassifier.find_project_folder fs project_name = Some folder)
  ∨ (Forall (λ en, ¬ over_threshold project_name en) fs ∧
     FileClassifier.find_project_folder fs project_name = None ∧
     ∀ cell,
       FileClassifier.run_row ranges fs (project_name, cell)
       = FileClassifier.Done fs).
Proof.
  destruct (find_project_folder_first fs project_name) as [?|[Hall Hnone]];
    [by left|right].
  split_and!; [done..|].
  intros [size|]; simpl; [|done]. by rewrite Hnone.
Qed.

(** C7. Both bucketizers return the label of the first range of the list
    with [min <= size < max]; when no range holds the size the classify
    engine has no target and leaves the base directory as it was, and the
    report engine answers with the label for unclassified. *)
Theorem bucketizer_first_match ranges size :
  (∀ min_size max_size dir_name,
     in_range (min_size, max_size, dir_name) size = true ↔
     (inject_Z min_size <= size)%Q ∧
     match max_size with
     | Fin n => (size < inject_Z n)%Q
     | Inf => True
     end) ∧
  ((∃ pre r post,
     ranges = pre ++ r :: post ∧
     Forall (λ r', in_range r' size = false) pre ∧
     in_range r size = true ∧
     FileClassifier.get_target_dir ranges size = Some (dir_name_of r) ∧
     ReportGenerator.get_target_dir ranges size = dir_name_of r)
  ∨ (Forall (λ r', in_range r' size = false) ranges ∧
     FileClassifier.get_target_dir ranges size = None ∧
     ReportGenerator.get_target_dir ranges size
     = ReportGenerator.unclassified ∧
     ∀ fs project_name,
       FileClassifier.run_row ranges fs (project_name, Some size)
       = FileClassifier.Done fs)).
Proof.
  split; [intros; apply in_range_spec|].
  destruct (get_target_dir_first ranges size) as [?|(Hall & Hnone & Hun)];
    [by left|right].
  split_and!; [done..|].
  intros fs project_name. simpl. rewrite Hnone.
  by destruct (FileClassifier.find_project_folder fs project_name).
Qed.

Lemma run_app ranges fs rows1 rows2 :
  FileClassifier.run ranges fs (rows1 ++ rows2)
  = match FileClassifier.run ranges fs rows1 with
    | FileClassifier.Done fs' => FileClassifier.run ranges fs' rows2
    | FileClassifier.Raised e fs' => FileClassifier.Raised e fs'
    end.
Proof.
  revert fs. induction rows1 as [|row rows1 IH]; intros fs; simpl; [done|].
  by destruct (FileClassifier.run_row ranges fs row).
Qed.

(** C6. When the move of a record fails, nothing catches the error: the
    run ends there with that error, whatever rows follow; the base
    directory is left as the earlier records made it, with at most the
    target directory of the failing record added. *)
Theorem classify_move_failure_ends_run
    ranges fs rows_before project_name project_size rows_after
    fs1 folder_path target_dir fs2 e :
  FileClassifier.run ranges fs rows_before = FileClassifier.Done fs1 →
  FileClassifier.find_project_folder fs1 project_name = Some folder_path →
  FileClassifier.get_target_dir ranges project_size = Some target_dir →
  makedirs fs1 target_dir = inl fs2 →
  move fs2 folder_path target_dir = inr e →
  FileClassifier.run ranges fs
    (rows_before ++ (project_name, Some project_size) :: rows_after)
  = FileClassifier.Raised e fs2
  ∧ (fs2 = fs1 ∨ fs2 = fs1 ++ [(target_dir, Dir [])]).
Proof.
  intros Hbefore Hfind Htarget Hmk Hmove. split.
  - rewrite run_app, Hbefore. simpl.
    by rewrite Hfind, Htarget, Hmk, Hmove.
  - unfold makedirs in Hmk.
    destruct (lookup_entry target_dir fs1) as [[|?]|]; naive_solver.
Qed.

(** * Moving a directory *)

Lemma lookup_entry_app name fs1 fs2 :
  lookup_entry name (fs1 ++ fs2)
  = match lookup_entry name fs1 with
    | Some n => Some n
    | None => lookup_entry name fs2
    end.
Proof.
  induction fs1 as [|[name' n] fs1 IH]; simpl; [done|].
  by case_bool_decide.
Qed.

Lemma lookup_entry_None name fs :
  lookup_entry name fs = None ↔ name ∉ fs.*1.
Proof.
  induction fs as [|[name' n] fs IH]; simpl.
  - split; [intros _ ?%elem_of_nil; done|done].
  - rewrite not_elem_of_cons. case_bool_decide; naive_solver.
Qed.

Lemma lookup_remove_entry_ne name folder fs :
  name ≠ folder →
  lookup_entry name (remove_entry folder fs) = lookup_entry name fs.
Proof.
  intros Hne. induction fs as [|[name' n] fs IH]; simpl; [done|].
  repeat (case_bool_decide; simpl); congruence.
Qed.

Lemma lookup_remove_entry_eq folder fs :
  NoDup fs.*1 → lookup_entry folder (remove_entry folder fs) = None.
Proof.
  induction fs as [|[name' n] fs IH]; simpl; [done|].
  intros [Hnotin Hnodup]%NoDup_cons. case_bool_decide; simpl.
  - subst. by apply lookup_entry_None.
  - rewrite bool_decide_eq_false_2 by done. by apply IH.
Qed.

Lemma lookup_add_child_ne name dir child fs :
  name ≠ dir →
  lookup_entry name (add_child dir child fs) = lookup_entry name fs.
Proof.
  intros Hne. induction fs as [|[name' n] fs IH]; simpl; [done|].
  case_bool_decide; simpl.
  - subst. destruct n; simpl; by rewrite bool_decide_eq_false_2.
  - by case_bool_decide.
Qed.

Lemma lookup_add_child_eq dir child fs children :
  lookup_entry dir fs = Some (Dir children) →
  lookup_entry dir (add_child dir child fs) = Some (Dir (children ++ [child])).
Proof.
  induction fs as [|[name' n] fs IH]; simpl; [done|].
  case_bool_decide; simpl.
  - intros [= ->]. simpl. by rewrite bool_decide_eq_true_2.
  - rewrite bool_decide_eq_false_2 by done. apply IH.
Qed.

(** A successful move takes the folder out of the base directory and puts
    it, with its contents, into the target directory. *)
Lemma move_into fs folder n target_dir children :
  NoDup fs.*1 → folder ≠ target_dir →
  lookup_entry folder fs = Some n →
  lookup_entry target_dir fs = Some (Dir children) →
  lookup_entry folder children = None →
  ∃ fs',
    move fs folder target_dir = inl fs' ∧
    lookup_entry folder fs' = None ∧
    lookup_entry target_dir fs' = Some (Dir (children ++ [(folder, n)])).
Proof.
  intros Hnodup Hne Hfolder Htarget Hfree. eexists. split_and!.
  - unfold move. rewrite bool_decide_eq_false_2 by done.
    by rewrite Hfolder, Htarget, Hfree.
  - rewrite lookup_add_child_ne by done. by apply lookup_remove_entry_eq.
  - apply lookup_add_child_eq. by rewrite lookup_remove_entry_ne.
Qed.

Lemma find_project_folder_at pre folder children post project_name :
  Forall (λ en, ¬ over_threshold project_name en) pre →
  (8 # 10 < similarity project_name folder)%Q →
  FileClassifier.find_project_folder
    (pre ++ (folder, Dir children) :: post) project_name = Some folder.
Proof.
  intros Hpre Hs. induction Hpre as [|[f n] pre Hno _ IH]; simpl.
  - apply Qltb_lt in Hs. by rewrite Hs.
  - destruct n as [|c]; simpl; [done|].
    destruct (Qltb _ _) eqn:E; [|done].
    destruct Hno. split; [done|by apply Qltb_lt].
Qed.

(** C10. The search of the classify engine goes through every directory
    of the base directory, the range directories among them: a range
    directory that is the first to score above 0.8 against the name of a
    record is the folder matched for that record, and it is moved, with
    what it holds, into the range directory of the record's size. *)
Theorem classify_moves_range_directory
    ranges pre folder children post project_name project_size target_dir :
  let fs := pre ++ (folder, Dir children) :: post in
  NoDup fs.*1 →
  folder ∈ map dir_name_of ranges →
  Forall (λ en, ¬ over_threshold project_name en) pre →
  (8 # 10 < similarity project_name folder)%Q →
  FileClassifier.get_target_dir ranges project_size = Some target_dir →
  target_dir ≠ folder →
  (lookup_entry target_dir fs = None ∨
   ∃ inside, lookup_entry target_dir fs = Some (Dir inside) ∧
             lookup_entry folder inside = None) →
  FileClassifier.find_project_folder fs project_name = Some folder ∧
  target_dir ∈ map dir_name_of ranges ∧
  ∃ fs' inside,
    FileClassifier.run_row ranges fs (project_name, Some project_size)
    = FileClassifier.Done fs' ∧
    lookup_entry folder fs' = None ∧
    lookup_entry target_dir fs' = Some (Dir inside) ∧
    lookup_entry folder inside = Some (Dir children).
Proof.
  intros fs Hnodup Hrange Hpre Hs Htarget Hne Hfree.
  assert (FileClassifier.find_project_folder fs project_name = Some folder)
    as Hfind by by apply find_project_folder_at.
  split; [done|]. split; [by eapply get_target_dir_label|].
  assert (lookup_entry folder fs = Some (Dir children)) as Hfolder.
  { unfold fs in *. rewrite fmap_app in Hnodup.
    apply NoDup_app in Hnodup as (_ & Hdisj & _).
    rewrite lookup_entry_app.
    replace (lookup_entry folder pre) with (@None node).
    - simpl. by rewrite bool_decide_eq_true_2.
    - symmetry. apply lookup_entry_None. intros Hin.
      apply (Hdisj _ Hin). simpl. apply list_elem_of_here. }
  simpl. rewrite Hfind, Htarget. unfold makedirs.
  destruct Hfree as [Hnone|(inside & Hsome & Hin)].
  - rewrite Hnone.
    destruct (move_into (fs ++ [(target_dir, Dir [])]) folder
                (Dir children) target_dir [])
      as (fs' & -> & Hgone & Hthere); try done.
    + rewrite fmap_app. apply NoDup_app. split_and!; [done| |].
      * intros name Hin [->|[]%elem_of_nil]%elem_of_cons.
        by apply lookup_entry_None in Hnone.
      * apply NoDup_singleton.
    + by rewrite lookup_entry_app, Hfolder.
    + rewrite lookup_entry_app, Hnone. simpl.
      by rewrite bool_decide_eq_true_2.
    + exists fs', [(folder, Dir children)]. split_and!; [done..|].
      simpl. by rewrite bool_decide_eq_true_2.
  - rewrite Hsome.
    destruct (move_into fs folder (Dir children) target_dir inside)
      as (fs' & -> & Hgone & Hthere); try done.
    exists fs', (inside ++ [(folder, Dir children)]). split_and!; [done..|].
    rewrite lookup_entry_app, Hin. simpl. by rewrite bool_decide_eq_true_2.
Qed.

(** * The report engine *)

Section report_engine.
Import ReportGenerator.
Implicit Types (projects : list project) (p q : project).

Local Abbreviation sim folder p := (similarity folder (name p)).

Lemma best_match_loop_spec folder projects best max :
  (best_match_loop folder projects best max = (best, max) ∧
   ∀ q, q ∈ projects → sized q → (sim folder q <= max)%Q)
  ∨ (∃ pre p post,
       projects = pre ++ p :: post ∧ sized p ∧
       best_match_loop folder projects best max = (Some p, sim folder p) ∧
       (max < sim folder p)%Q ∧
       (∀ q, q ∈ pre → sized q → (sim folder q < sim folder p)%Q) ∧
       (∀ q, q ∈ post → sized q → (sim folder q <= sim folder p)%Q)).
Proof.
  revert best max. induction projects as [|p0 projects IH];
    intros best max; simpl.
  { left. split; [done|]. by intros q ?%elem_of_nil. }
  destruct (size p0) as [s|] eqn:Hsize.
  - destruct (Qltb max (sim folder p0)) eqn:Hlt.
    + apply Qltb_lt in Hlt. right.
      destruct (IH (Some p0) (sim folder p0))
        as [[-> Hall]|(pre & p & post & -> & Hp & -> & Hmax & Hpre & Hpost)].
      * exists [], p0, projects.
        split_and!; [done|by unfold sized; rewrite Hsize|done..| |done].
        by intros q ?%elem_of_nil.
      * exists (p0 :: pre), p, post. split_and!; [done..| | |done].
        -- by eapply Qlt_trans.
        -- intros q [->|Hq]%elem_of_cons ?; [done|by apply Hpre].
    + assert (sim folder p0 <= max)%Q as Hle.
      { apply Qnot_lt_le. intros Hc%Qltb_lt. congruence. }
      destruct (IH best max)
        as [[-> Hall]|(pre & p & post & -> & Hp & -> & Hmax & Hpre & Hpost)].
      * left. split; [done|].
        intros q [->|Hq]%elem_of_cons ?; [done|by apply Hall].
      * right. exists (p0 :: pre), p, post. split_and!; [done..| |done].
        intros q [->|Hq]%elem_of_cons ?; [|by apply Hpre].
        by eapply Qle_lt_trans.
  - destruct (IH best max)
      as [[-> Hall]|(pre & p & post & -> & Hp & -> & Hmax & Hpre & Hpost)].
    + left. split; [done|].
      intros q [->|Hq]%elem_of_cons Hs; [|by apply Hall].
      destruct Hs as [? Hs]. congruence.
    + right. exists (p0 :: pre), p, post. split_and!; [done..| |done].
      intros q [->|Hq]%elem_of_cons Hs; [|by apply Hpre].
      destruct Hs as [? Hs]. congruence.
Qed.

(** [_find_best_match]: the first project of the pool with the greatest
    score, when that score is positive; nothing otherwise. *)
Lemma find_best_match_spec folder projects :
  (find_best_match folder projects = (None, 0%Q) ∧
   ∀ q, q ∈ projects → sized q → ¬ (0 < sim folder q)%Q)
  ∨ (∃ p, first_best folder projects p ∧
          find_best_match folder projects = (Some p, sim folder p)).
Proof.
  unfold find_best_match.
  destruct (best_match_loop_spec folder projects None 0%Q)
    as [[-> Hall]|(pre & p & post & -> & Hp & -> & Hmax & Hpre & Hpost)].
  - left. split; [done|]. intros q Hq Hs. by apply Qle_not_lt, Hall.
  - right. exists p. split; [|done]. by exists pre, post.
Qed.

Lemma report_sub_entries_flat_map ranges projects entry sub_entries :
  report_sub_entries ranges projects entry sub_entries
  = flat_map (λ sub : string * node,
                report_folder ranges projects sub.1 entry)
      (filter (λ sub : string * node, isdir sub.2 = true) sub_entries).
Proof.
  induction sub_entries as [|[sub_entry n] rest IH]; [done|].
  rewrite filter_cons. simpl. rewrite IH.
  by destruct (isdir n).
Qed.

Lemma flat_map_fmap {X Y Z} (f : Y → list Z) (g : X → Y) (l : list X) :
  flat_map f (g <$> l) = flat_map (λ x, f (g x)) l.
Proof. induction l; simpl; [done|]. by f_equal. Qed.

(** [generate] visits the folders to report of the specification, in
    their order, and appends for each what [report_folder] gives. *)
Lemma generate_flat_map ranges projects base_name base_dir :
  generate ranges projects base_name base_dir
  = flat_map (λ fl : string * string,
                report_folder ranges projects fl.1 fl.2)
      (folders_to_report ranges base_name base_dir).
Proof.
  unfold folders_to_report.
  induction base_dir as [|[entry n] rest IH]; simpl; [done|].
  rewrite flat_map_app, <- IH. destruct n as [|sub_entries]; simpl; [done|].
  f_equal. case_bool_decide; simpl; [|by rewrite app_nil_r].
  by rewrite report_sub_entries_flat_map, flat_map_fmap.
Qed.
End report_engine.

Section report_engine_claims.
Import ReportGenerator.

(** C2, as stated, fails: a folder whose name shares no character with
    the name of any record gets no row. *)
Lemma report_row_per_folder_fails :
  ¬ (∀ ranges projects base_name base_dir,
       length (generate ranges projects base_name base_dir)
       = length (folders_to_report ranges base_name base_dir)).
Proof.
  intros Hclaim.
  specialize (Hclaim [] [Project "y" (Some 1%Q)] "base" [("x", Dir [])]).
  vm_compute in Hclaim. discriminate Hclaim.
Qed.

(** C2, amended. [generate] goes through the folders to report in order;
    a folder gets exactly one row when some record with a size scores
    above 0 against its name, and that row carries the greatest score
    and the first record that reaches it, however low the score is;
    a folder for which no record with a size scores above 0 gets no
    row. *)
Theorem report_row_per_matched_folder ranges projects base_name base_dir :
  generate ranges projects base_name base_dir
  = flat_map (λ fl : string * string,
                report_folder ranges projects fl.1 fl.2)
      (folders_to_report ranges base_name base_dir) ∧
  ∀ entry location,
    (∃ p s,
       first_best entry projects p ∧ size p = Some s ∧
       report_folder ranges projects entry location
       = [ReportRow entry (name p) (similarity entry (name p)) (Some s)
            (get_target_dir ranges s) location])
    ∨ ((∀ q, q ∈ projects → sized q →
          ¬ (0 < similarity entry (name q))%Q) ∧
       report_folder ranges projects entry location = []).
Proof.
  split; [apply generate_flat_map|].
  intros entry location. unfold report_folder.
  destruct (find_best_match_spec entry projects)
    as [[-> Hnone]|(p & Hbest & ->)].
  - by right.
  - left. pose proof Hbest as (_ & _ & _ & [s Hs] & _).
    exists p, s. split_and!; [done..|]. by rewrite Hs.
Qed.
End report_engine_claims.

Lemma classify_move_failure_ends_run_witness :
  FileClassifier.run two_ranges clash_dir
    ([("Beta_Project", Some (100 # 1)%Q)]
     ++ ("Alpha_Project", Some (300 # 1)%Q) :: [("Gamma", Some (7 # 1)%Q)])
  = FileClassifier.Raised (DestinationExists "Small" "Alpha Project")
      clash_dir_moved
  ∧ (clash_dir_moved = clash_dir_moved
     ∨ clash_dir_moved = clash_dir_moved ++ [("Small", Dir [])]).
Proof.
  apply (classify_move_failure_ends_run two_ranges clash_dir
           [("Beta_Project", Some (100 # 1)%Q)] "Alpha_Project" (300 # 1)%Q
           [("Gamma", Some (7 # 1)%Q)] clash_dir_moved "Alpha Project" "Small"
           clash_dir_moved (DestinationExists "Small" "Alpha Project"));
    by vm_compute.
Defined.

Lemma classify_moves_range_directory_witness :
  FileClassifier.find_project_folder [("Small", Dir [("old", File)])] "Small"
  = Some "Small" ∧
  "Big" ∈ map dir_name_of two_ranges ∧
  ∃ fs' inside,
    FileClassifier.run_row two_ranges [("Small", Dir [("old", File)])]
      ("Small", Some (1000 # 1)%Q)
    = FileClassifier.Done fs' ∧
    lookup_entry "Small" fs' = None ∧
    lookup_entry "Big" fs' = Some (Dir inside) ∧
    lookup_entry "Small" inside = Some (Dir [("old", File)]).
Proof.
  apply (classify_moves_range_directory two_ranges [] "Small"
           [("old", File)] [] "Small" (1000 # 1)%Q "Big").
  - apply NoDup_singleton.
  - vm_compute. apply list_elem_of_here.
  - constructor.
  - by vm_compute.
  - by vm_compute.
  - done.
  - left. by vm_compute.
Defined.

(** * Further properties of the score *)

Section score_facts.
Context `{Countable A}.
Import Difflib.
Implicit Types a b : list A.

Lemma window_full_whole a b M :
  window_full a b (0, length a, 0, length b) M →
  M ≤ length a ∧ M ≤ length b ∧ (M = length a → M = length b → a = b).
Proof.
  unfold window_full. rewrite !Nat.sub_0_r, !slice_whole. tauto.
Qed.

(** The matched total fills both sequences only if they are equal. *)
Lemma matches_full a b M :
  matches a b = Some M → M = length a → M = length b → a = b.
Proof.
  destruct (matches_blocks a b) as (blocks & Hloop & ->). intros [= <-].
  assert (∃ Ms, Forall2 (window_full a b) [(0, length a, 0, length b)] Ms
                ∧ sum_sizes blocks = sum_sizes [] + sum_list Ms)
    as (Ms & HMs & Hsum).
  { eapply (blocks_loop_totals a b (chain_b b) (chain_b_sound b));
      [| | | |exact Hloop].
    - intros alo ahi blo bhi (? & ? & ? & ?) _. unfold window_full.
      split_and!; [lia..|]. intros ? ?.
      replace ahi with alo by lia. replace bhi with blo by lia.
      by rewrite !slice_empty.
    - intros alo ahi blo bhi (? & ? & ? & ?) _. unfold window_full.
      split_and!; [lia..|]. intros ? ?.
      replace ahi with alo by lia. replace bhi with blo by lia.
      by rewrite !slice_empty.
    - intros alo ahi blo bhi i j k M1 M2 Hw Hflm Hk
        (? & ? & Hleft) (? & ? & Hright).
      pose proof (window_ok_block a b (chain_b b) (chain_b_sound b)
                    _ _ _ _ Hw) as Hb.
      rewrite Hflm in Hb. pose proof (block_slices _ _ _ _ _ _ Hb) as Hmid.
      destruct Hw as (? & ? & ? & ?), Hb as (? & ? & ? & ? & _).
      unfold window_full. split_and!; [lia..|]. intros ? ?.
      rewrite (slice_app a alo i ahi), (slice_app a i (i + k) ahi) by lia.
      rewrite (slice_app b blo j bhi), (slice_app b j (j + k) bhi) by lia.
      rewrite Hleft, Hmid, Hright by lia. done.
    - constructor; [apply whole_window_ok|constructor]. }
  apply Forall2_cons_inv_l in HMs as (M & ? & HM & Hnil & ->).
  apply Forall2_nil_inv_l in Hnil as ->.
  simpl in Hsum. apply window_full_whole in HM as (_ & _ & HM).
  intros ? ?. apply HM; lia.
Qed.

(** Something is matched only if the two sequences share an element. *)
Lemma matches_shared a b M :
  matches a b = Some M → 0 < M → ∃ x, x ∈ a ∧ x ∈ b.
Proof.
  destruct (matches_blocks a b) as (blocks & Hloop & ->). intros [= <-].
  assert (∃ Ms, Forall2 (window_shared a b) [(0, length a, 0, length b)] Ms
                ∧ sum_sizes blocks = sum_sizes [] + sum_list Ms)
    as (Ms & HMs & Hsum).
  { eapply (blocks_loop_totals a b (chain_b b) (chain_b_sound b));
      [| | | |exact Hloop].
    - intros. by left.
    - intros. by left.
    - intros alo ahi blo bhi i j k M1 M2 Hw Hflm Hk _ _. right.
      pose proof (window_ok_block a b (chain_b b) (chain_b_sound b)
                    _ _ _ _ Hw) as Hb.
      rewrite Hflm in Hb. destruct Hb as (_ & _ & _ & _ & Hsame).
      destruct (same_at_lookup a b _ _ (Hsame 0 ltac:(lia)))
        as (x & Ha & Hb).
      exists x. split; by eapply list_elem_of_lookup_2.
    - constructor; [apply whole_window_ok|constructor]. }
  apply Forall2_cons_inv_l in HMs as (M & ? & HM & Hnil & ->).
  apply Forall2_nil_inv_l in Hnil as ->.
  simpl in Hsum. intros HMpos. destruct HM as [->|?]; [lia|done].
Qed.
End score_facts.

Lemma chars_inj a b : chars a = chars b → a = b.
Proof.
  unfold chars. intros Heq.
  rewrite <- (String.string_of_list_ascii_of_string a), Heq.
  apply String.string_of_list_ascii_of_string.
Qed.

Lemma chars_nil a : length (chars a) = 0 → a = "".
Proof.
  intros Hlen. apply chars_inj. by destruct (chars a).
Qed.

Lemma similarity_matches a b :
  ∃ M, Difflib.matches (chars a) (chars b) = Some M ∧
       similarity a b
       = Difflib.calculate_ratio M (length (chars a) + length (chars b)).
Proof.
  destruct (matches_total (chars a) (chars b)) as [M HM].
  exists M. split; [done|].
  pose proof (ratio_matches _ _ _ HM) as Hr.
  rewrite similarity_ratio in Hr. by injection Hr.
Qed.

(** The score is 1.0 exactly for two equal strings. *)
Theorem similarity_one_iff (a b : string) :
  (similarity a b == 1)%Q ↔ a = b.
Proof.
  split.
  - destruct (similarity_matches a b) as (M & HM & ->).
    destruct (matches_bound _ _ _ HM) as [Hla Hlb].
    destruct (decide (length (chars a) + length (chars b) = 0)) as [E|HT].
    + intros _. rewrite (chars_nil a), (chars_nil b) by lia. done.
    + rewrite calculate_ratio_pos by done.
      unfold Qeq. simpl Qnum. simpl Qden. rewrite Zpos_of_nat by done.
      intros Heq. apply chars_inj.
      apply (matches_full _ _ _ HM); lia.
  - intros ->. destruct (ratio_identical (chars b)) as (q & Hq & Hone).
    rewrite similarity_ratio in Hq. by injection Hq as ->.
Qed.

(** Two strings with no character in common, not both empty, score 0.0;
    so does the empty string against any other string. *)
Theorem similarity_disjoint_zero (a b : string) :
  a ≠ "" ∨ b ≠ "" →
  (∀ c, c ∈ chars a → c ∉ chars b) →
  (similarity a b == 0)%Q.
Proof.
  intros Hne Hdisj. destruct (similarity_matches a b) as (M & HM & ->).
  assert (M = 0) as ->.
  { destruct (decide (0 < M)) as [HMpos|]; [|lia].
    destruct (matches_shared _ _ _ HM HMpos) as (c & Ha & Hb).
    by destruct (Hdisj c Ha). }
  rewrite calculate_ratio_pos; [done|].
  intros E. destruct Hne as [Hne|Hne]; apply Hne, chars_nil; lia.
Qed.

Lemma similarity_disjoint_zero_witness : (similarity "" "x" == 0)%Q.
Proof.
  apply (similarity_disjoint_zero "" "x").
  - by right.
  - simpl. by intros c ?%elem_of_nil.
Defined.

(** When the second string has no popular character, two strings that
    share a character score above 0.0. *)
Theorem similarity_shared_positive (a b : string) c :
  Difflib.no_popular (chars b) →
  c ∈ chars a → c ∈ chars b →
  (0 < similarity a b)%Q.
Proof.
  intros Hpop Ha Hb.
  destruct (matches_alignment (chars a) (chars b) Hpop) as (M & HM & Halign).
  pose proof (spec_alignment_pos _ _ _ _ Halign Ha Hb) as HMpos.
  destruct (similarity_matches a b) as (M' & HM' & ->).
  rewrite HM in HM'. injection HM' as <-.
  rewrite calculate_ratio_pos.
  - unfold Qlt. simpl. lia.
  - destruct (chars a); [by apply elem_of_nil in Ha|simpl; lia].
Qed.

Lemma similarity_shared_positive_witness :
  (0 < similarity "xa" "ay")%Q.
Proof.
  eapply (similarity_shared_positive "xa" "ay").
  - left. simpl. lia.
  - simpl. apply list_elem_of_further, list_elem_of_here.
  - simpl. apply list_elem_of_here.
Defined.

(** A score above 0.8 bounds the lengths of the two strings by each
    other: neither is more than one and a half times as long as the
    other. *)
Theorem similarity_threshold_lengths (a b : string) :
  (8 # 10 < similarity a b)%Q →
  2 * length (chars a) ≤ 3 * length (chars b) ∧
  2 * length (chars b) ≤ 3 * length (chars a).
Proof.
  destruct (similarity_matches a b) as (M & HM & ->).
  destruct (matches_bound _ _ _ HM) as [Hla Hlb].
  destruct (decide (length (chars a) + length (chars b) = 0)) as [E|HT].
  - intros _. lia.
  - rewrite calculate_ratio_pos by done.
    unfold Qlt. simpl Qnum. simpl Qden. rewrite Zpos_of_nat by done. lia.
Qed.

Lemma similarity_threshold_lengths_witness :
  2 * length (chars "Alpha_Project") ≤ 3 * length (chars "Alpha Project") ∧
  2 * length (chars "Alpha Project") ≤ 3 * length (chars "Alpha_Project").
Proof.
  apply (similarity_threshold_lengths "Alpha_Project" "Alpha Project").
  by vm_compute.
Defined.

(** * Further properties of the range validator *)

Section range_printing.
Import RangeConfigurator RangeValidator.

Local Abbreviation value_step :=
  (λ (acc : Z) (c : Ascii.ascii),
     10 * acc + (Z.of_nat (Ascii.nat_of_ascii c) - 48))%Z.

Lemma value_digits d d' :
  foldl value_step (Z.of_N (DecimalPos.Unsigned.of_lu d'))
    (chars (NilEmpty.string_of_uint d))
  = Z.of_N (DecimalPos.Unsigned.of_lu (Decimal.revapp d d')).
Proof.
  revert d'. induction d; intros d'; simpl; [done|..];
    rewrite <- IHd; f_equal; simpl DecimalPos.Unsigned.of_lu;
    match goal with
    | |- context [Ascii.nat_of_ascii ?c] =>
        let v := eval vm_compute in (Ascii.nat_of_ascii c) in
        change (Ascii.nat_of_ascii c) with v
    end; lia.
Qed.

Lemma value_string_of_uint d :
  value (NilEmpty.string_of_uint d) = Z.of_N (N.of_uint d).
Proof.
  unfold value, N.of_uint. rewrite DecimalPos.Unsigned.of_uint_alt.
  apply (value_digits d Decimal.Nil).
Qed.

Lemma forallb_digits d :
  forallb literal_digit (chars (NilEmpty.string_of_uint d)) = true.
Proof. induction d; simpl; [done|..]; by rewrite IHd. Qed.

Lemma literal_string_of_uint d :
  d ≠ Decimal.Nil → literal (NilEmpty.string_of_uint d) = true.
Proof.
  intros Hd. unfold literal. rewrite forallb_digits, andb_true_r.
  apply negb_true_iff, bool_decide_eq_false. by destruct d.
Qed.

Lemma str_of_int_nonneg n :
  (0 ≤ n)%Z →
  ∃ d, d ≠ Decimal.Nil ∧ str_of_int n = NilEmpty.string_of_uint d ∧
       N.of_uint d = Z.to_N n.
Proof.
  intros Hn. exists (N.to_uint (Z.to_N n)). split_and!.
  - destruct n as [|p|p]; simpl; [done| |lia].
    apply DecimalPos.Unsigned.to_uint_nonnil.
  - unfold str_of_int. destruct n as [|p|p]; simpl; [done| |lia].
    unfold NilZero.string_of_uint.
    pose proof (DecimalPos.Unsigned.to_uint_nonnil p).
    by destruct (Pos.to_uint p).
  - apply DecimalN.Unsigned.of_to.
Qed.

(** What [str] prints for a non-negative integer is a literal of that
    value. *)
Lemma literal_str_of_int n :
  (0 ≤ n)%Z → literal (str_of_int n) = true ∧ value (str_of_int n) = n.
Proof.
  intros Hn. destruct (str_of_int_nonneg n Hn) as (d & Hd & -> & Hof).
  split; [by apply literal_string_of_uint|].
  rewrite value_string_of_uint, Hof. lia.
Qed.

(** [str] and [int] are inverse on the non-negative integers within the
    limit of [int], and [isdigit] accepts what [str] prints for them. *)
Lemma int_str_of_int n :
  (0 ≤ n)%Z → length (chars (str_of_int n)) ≤ int_max_str_digits →
  isdigit (str_of_int n) = true ∧ int (str_of_int n) = Some n.
Proof.
  intros Hn Hlen. destruct (literal_str_of_int n Hn) as [Hl Hv].
  split; [by apply literal_isdigit|].
  by rewrite literal_int, Hv.
Qed.
End range_printing.

Section range_invariant.
Import RangeConfigurator RangeValidator.

(** A turn of the loop that does not raise leaves the ranges as they
    are or adds one well-formed range. *)
Lemma get_ranges_step_well_formed st entry st' :
  get_ranges_step st entry = Some st' →
  Forall well_formed st.1 → Forall well_formed st'.1.
Proof.
  destruct st as [ranges errors], entry as [[min_val max_val] dir_name].
  unfold get_ranges_step.
  destruct (negb (isdigit min_val)); [by intros [= <-]|].
  destruct (negb (bool_decide (max_val = "inf")) && negb (isdigit max_val));
    [by intros [= <-]|].
  destruct (bool_decide (dir_name = "")) eqn:Hdir; [by intros [= <-]|].
  apply bool_decide_eq_false in Hdir.
  destruct (int min_val) as [min_num|] eqn:Hmin; simpl; [|done].
  apply int_nonneg in Hmin.
  destruct (bool_decide (max_val = "inf")); simpl.
  - intros [= <-] Hwf. simpl in *. apply Forall_app. split; [done|].
    by repeat constructor.
  - destruct (int max_val) as [max_num|]; simpl; [|done].
    case_bool_decide; intros [= <-] Hwf; simpl in *; [done|].
    apply Forall_app. split; [done|].
    repeat constructor; simpl; [done|lia|done].
Qed.

Lemma get_ranges_loop_well_formed entries st st' :
  get_ranges_loop entries st = Some st' →
  Forall well_formed st.1 → Forall well_formed st'.1.
Proof.
  revert st. induction entries as [|entry entries IH]; intros st; simpl.
  - by intros [= <-].
  - destruct (get_ranges_step st entry) as [st1|] eqn:Hstep; simpl; [|done].
    intros Hloop Hwf. apply (IH st1 Hloop).
    by apply (get_ranges_step_well_formed st entry).
Qed.

Lemma get_ranges_ranges_well_formed entries ranges errors :
  get_ranges entries = Some (ranges, errors) → Forall well_formed ranges.
Proof.
  intros Hget.
  by apply (get_ranges_loop_well_formed entries ([], []) (ranges, errors)).
Qed.

Lemma well_formed_in_range r :
  well_formed r → in_range r (inject_Z r.1.1) = true.
Proof.
  destruct r as [[min_size max_size] dir_name]. intros (_ & Hmax & _).
  apply in_range_spec. split; [apply Qle_refl|].
  destruct max_size; [|done]. simpl in *. by rewrite <- Zlt_Qlt.
Qed.

(** Every range the validator returns has a non-negative minimum below
    its maximum and a folder name, and it holds its own minimum: no
    returned range is empty. *)
Theorem get_ranges_well_formed (entries : list (string * string * string))
    ranges errors :
  get_ranges entries = Some (ranges, errors) →
  Forall (λ r, well_formed r ∧ in_range r (inject_Z r.1.1) = true) ranges.
Proof.
  intros Hwf%get_ranges_ranges_well_formed.
  eapply Forall_impl; [exact Hwf|]. intros r Hr.
  split; [done|by apply well_formed_in_range].
Qed.

Lemma get_ranges_well_formed_witness :
  Forall (λ r, well_formed r ∧ in_range r (inject_Z r.1.1) = true)
    [(0%Z, Fin 500, "A")].
Proof.
  apply (get_ranges_well_formed [("0", "500", "A"); ("500", "abc", "B")]
           [(0%Z, Fin 500, "A")] [MaxNotDigit "abc"]).
  by vm_compute.
Defined.

Lemma str_of_int_not_inf n : (0 ≤ n)%Z → str_of_int n ≠ "inf".
Proof.
  intros Hn Heq. destruct (literal_str_of_int n Hn) as [Hd _].
  rewrite Heq in Hd. discriminate Hd.
Qed.

Lemma get_ranges_step_entry_of ranges errors r :
  well_formed r → printable r →
  get_ranges_step (ranges, errors) (entry_of r) = Some (ranges ++ [r], errors).
Proof.
  destruct r as [[min_size max_size] dir_name].
  intros (Hmin & Hmax & Hname) [Hpmin Hpmax]. simpl in *.
  destruct (int_str_of_int min_size Hmin Hpmin) as [Hdmin Himin].
  unfold get_ranges_step, entry_of. simpl.
  rewrite Hdmin, Himin, (bool_decide_eq_false_2 (dir_name = "")) by done.
  destruct max_size as [n|]; simpl.
  - destruct (int_str_of_int n ltac:(lia) Hpmax) as [Hdn Hin].
    rewrite Hdn, Hin, andb_false_r. simpl.
    rewrite (bool_decide_eq_false_2 (str_of_int n = "inf"))
      by (apply str_of_int_not_inf; lia).
    simpl. by rewrite bool_decide_eq_false_2 by lia.
  - done.
Qed.

Lemma get_ranges_loop_entry_of done_ranges errors ranges :
  Forall well_formed ranges → Forall printable ranges →
  get_ranges_loop (entry_of <$> ranges) (done_ranges, errors)
  = Some (done_ranges ++ ranges, errors).
Proof.
  intros Hwf. revert done_ranges.
  induction Hwf as [|r ranges Hr _ IH]; intros done_ranges Hp.
  - by rewrite app_nil_r.
  - apply Forall_cons in Hp as [Hpr Hp]. rewrite fmap_cons.
    cbn [get_ranges_loop]. rewrite get_ranges_step_entry_of by done.
    cbn [mbind option_bind]. rewrite IH by done. by rewrite <- app_assoc.
Qed.

(** The texts that [create_widgets] writes for a table of well-formed
    ranges validate back to that table, with no error. *)
Theorem get_ranges_entry_of (ranges : list range) :
  Forall well_formed ranges → Forall printable ranges →
  get_ranges (entry_of <$> ranges) = Some (ranges, []).
Proof.
  intros Hwf Hp. unfold get_ranges.
  by rewrite get_ranges_loop_entry_of.
Qed.

Lemma get_ranges_entry_of_witness :
  get_ranges create_widgets = Some (DEFAULT_RANGES, []).
Proof.
  apply (get_ranges_entry_of DEFAULT_RANGES).
  - repeat constructor; simpl; lia || done.
  - apply (bool_decide_unpack _). by vm_compute.
Defined.

(** On texts that the code and the specification read alike, the
    validator returns what the specification says: the ranges of the
    valid triples in the order of the input and, for every other triple,
    the message of the first check it violates; one outcome for each
    triple. *)
Theorem get_ranges_readable (entries : list (string * string * string)) :
  Forall readable_entry entries →
  get_ranges entries
  = Some (parse <$> filter valid entries, flat_map errors_of entries) ∧
  length (filter valid entries) + length (flat_map errors_of entries)
  = length entries.
Proof.
  intros Hentries. rewrite get_ranges_flat_map, flat_map_ranges_of by done.
  split; [done|].
  rewrite <- (flat_map_length_sum entries), flat_map_ranges_of.
  by rewrite length_fmap.
Qed.

Lemma get_ranges_readable_witness :
  get_ranges [("0", "500", "A"); ("500", "abc", "B")]
  = Some (parse <$> filter valid [("0", "500", "A"); ("500", "abc", "B")],
          flat_map errors_of [("0", "500", "A"); ("500", "abc", "B")]) ∧
  length (filter valid [("0", "500", "A"); ("500", "abc", "B")])
  + length (flat_map errors_of [("0", "500", "A"); ("500", "abc", "B")])
  = length [("0", "500", "A"); ("500", "abc", "B")].
Proof.
  apply (get_ranges_readable [("0", "500", "A"); ("500", "abc", "B")]).
  apply (bool_decide_unpack _). by vm_compute.
Defined.
End range_invariant.

(** * Further properties of the classify engine *)

Lemma remove_entry_names name folder fs :
  name ∈ (remove_entry folder fs).*1 → name ∈ fs.*1.
Proof.
  induction fs as [|[name' n] fs IH]; simpl; [done|].
  case_bool_decide; simpl.
  - intros ?. by apply list_elem_of_further.
  - intros [->|?]%elem_of_cons; [apply list_elem_of_here|].
    apply list_elem_of_further. by apply IH.
Qed.

Lemma remove_entry_NoDup folder fs :
  NoDup fs.*1 → NoDup (remove_entry folder fs).*1.
Proof.
  induction fs as [|[name' n] fs IH]; simpl; [done|].
  intros [Hnotin Hnodup]%NoDup_cons. case_bool_decide; simpl; [done|].
  apply NoDup_cons. split; [|by apply IH].
  intros Hin. by apply Hnotin, (remove_entry_names _ folder).
Qed.

Lemma add_child_names dir child fs : (add_child dir child fs).*1 = fs.*1.
Proof.
  induction fs as [|[name' n] fs IH]; simpl; [done|].
  case_bool_decide; simpl; [by destruct n|by f_equal].
Qed.

Lemma lookup_entry_Some_name name fs n :
  lookup_entry name fs = Some n → name ∈ fs.*1.
Proof.
  intros Hl. destruct (decide (name ∈ fs.*1)) as [|Hnotin]; [done|].
  apply lookup_entry_None in Hnotin. congruence.
Qed.

Lemma find_project_folder_lookup fs project_name folder :
  NoDup fs.*1 →
  FileClassifier.find_project_folder fs project_name = Some folder →
  ∃ children, lookup_entry folder fs = Some (Dir children).
Proof.
  intros Hnodup Hfind.
  destruct (find_project_folder_first fs project_name)
    as [(pre & f & children & post & -> & _ & _ & Hf)|[_ Hnone]];
    [|congruence].
  rewrite Hf in Hfind. injection Hfind as <-. exists children.
  rewrite fmap_app in Hnodup. apply NoDup_app in Hnodup as (_ & Hdisj & _).
  rewrite lookup_entry_app.
  replace (lookup_entry f pre) with (@None node).
  - simpl. by rewrite bool_decide_eq_true_2.
  - symmetry. apply lookup_entry_None. intros Hin.
    apply (Hdisj _ Hin). simpl. apply list_elem_of_here.
Qed.

Lemma row_keeps_refl ranges fs : row_keeps ranges fs fs.
Proof. unfold row_keeps. auto. Qed.

Lemma row_keeps_trans ranges fs1 fs2 fs3 :
  row_keeps ranges fs1 fs2 → row_keeps ranges fs2 fs3 →
  row_keeps ranges fs1 fs3.
Proof.
  intros (Hd1 & Hn1 & Hf1) (Hd2 & Hn2 & Hf2). split_and!.
  - auto.
  - intros name [Hin|?]%Hn2; [by apply Hn1|by right].
  - intros Hnodup name Hfile. apply Hf2; [by apply Hd1|by apply Hf1].
Qed.

Lemma makedirs_keeps ranges fs target_dir fs' :
  target_dir ∈ map dir_name_of ranges →
  makedirs fs target_dir = inl fs' → row_keeps ranges fs fs'.
Proof.
  intros Hlabel. unfold makedirs.
  destruct (lookup_entry target_dir fs) as [[|children]|] eqn:Ht;
    [done|intros [= <-]; apply row_keeps_refl|intros [= <-]].
  split_and!.
  - intros Hnodup. rewrite fmap_app. apply NoDup_app. split_and!; [done| |].
    + intros name Hin [->|[]%elem_of_nil]%elem_of_cons.
      by apply lookup_entry_None in Ht.
    + apply NoDup_singleton.
  - intros name. rewrite fmap_app, elem_of_app.
    intros [?|[->|[]%elem_of_nil]%elem_of_cons]; [by left|by right].
  - intros _ name Hfile. by rewrite lookup_entry_app, Hfile.
Qed.

Lemma move_keeps ranges fs folder target_dir children fs' :
  NoDup fs.*1 →
  lookup_entry folder fs = Some (Dir children) →
  move fs folder target_dir = inl fs' → row_keeps ranges fs fs'.
Proof.
  intros Hnodup Hfolder. unfold move.
  case_bool_decide; [intros [= <-]; apply row_keeps_refl|].
  rewrite Hfolder.
  destruct (lookup_entry target_dir fs) as [[|inside]|] eqn:Ht;
    [intros [= <-]; apply row_keeps_refl| |intros [= <-]; apply row_keeps_refl].
  destruct (lookup_entry folder inside); [done|]. intros [= <-].
  split_and!.
  - intros _. rewrite add_child_names. by apply remove_entry_NoDup.
  - intros name. rewrite add_child_names. intros ?%remove_entry_names.
    by left.
  - intros _ name Hfile.
    rewrite lookup_add_child_ne, lookup_remove_entry_ne; [done|..];
      intros ->; congruence.
Qed.

Lemma run_row_keeps ranges fs row :
  NoDup fs.*1 →
  row_keeps ranges fs (final_fs (FileClassifier.run_row ranges fs row)).
Proof.
  intros Hnodup. destruct row as [project_name [project_size|]]; simpl;
    [|apply row_keeps_refl].
  destruct (FileClassifier.find_project_folder fs project_name)
    as [folder|] eqn:Hfind; [|apply row_keeps_refl].
  destruct (find_project_folder_lookup _ _ _ Hnodup Hfind)
    as [children Hfolder].
  destruct (FileClassifier.get_target_dir ranges project_size)
    as [target_dir|] eqn:Htarget; [|apply row_keeps_refl].
  pose proof (get_target_dir_label _ _ _ Htarget) as Hlabel.
  destruct (makedirs fs target_dir) as [fs'|e] eqn:Hmk;
    [|apply row_keeps_refl].
  pose proof (makedirs_keeps ranges _ _ _ Hlabel Hmk) as Hk.
  assert (lookup_entry folder fs' = Some (Dir children)) as Hfolder'.
  { unfold makedirs in Hmk.
    destruct (lookup_entry target_dir fs) as [[|?]|]; try done;
      injection Hmk as <-; [done|].
    by rewrite lookup_entry_app, Hfolder. }
  destruct (move fs' folder target_dir) as [fs''|e] eqn:Hmove; simpl;
    [|done].
  eapply row_keeps_trans; [exact Hk|].
  eapply move_keeps; [|exact Hfolder'|exact Hmove].
  by apply Hk.
Qed.

Lemma run_keeps ranges fs rows :
  NoDup fs.*1 →
  row_keeps ranges fs (final_fs (FileClassifier.run ranges fs rows)).
Proof.
  revert fs. induction rows as [|row rows IH]; intros fs Hnodup; simpl;
    [apply row_keeps_refl|].
  pose proof (run_row_keeps ranges fs row Hnodup) as Hrow.
  destruct (FileClassifier.run_row ranges fs row) as [fs'|e fs']; simpl in *;
    [|done].
  eapply row_keeps_trans; [exact Hrow|]. apply IH. by apply Hrow.
Qed.

(** When every label of the ranges is the name of one entry (no path
    syntax), a run, finished or interrupted, leaves the names of the base
    directory distinct, and the only entries it adds to the base
    directory are named by labels of the ranges. *)
Theorem run_adds_only_range_directories ranges fs rows :
  Forall (λ r, plain_name (dir_name_of r)) ranges →
  NoDup fs.*1 →
  NoDup (final_fs (FileClassifier.run ranges fs rows)).*1 ∧
  ∀ name,
    name ∈ (final_fs (FileClassifier.run ranges fs rows)).*1 →
    name ∈ fs.*1 ∨ name ∈ map dir_name_of ranges.
Proof.
  intros _ Hnodup.
  destruct (run_keeps ranges fs rows Hnodup) as (Hd & Hn & _).
  split; [by apply Hd|done].
Qed.

(** A run never moves, replaces or removes a plain file of the base
    directory. *)
Theorem run_leaves_files ranges fs rows name :
  NoDup fs.*1 →
  lookup_entry name fs = Some File →
  lookup_entry name (final_fs (FileClassifier.run ranges fs rows))
  = Some File.
Proof.
  intros Hnodup Hfile.
  destruct (run_keeps ranges fs rows Hnodup) as (_ & _ & Hf). by apply Hf.
Qed.

(** Running over two lists of rows in a row is running over the first
    and, if that ends normally, over the second from the base directory
    the first has left; an error in the first is the outcome. *)
Theorem run_in_two_parts ranges fs rows1 rows2 :
  FileClassifier.run ranges fs (rows1 ++ rows2)
  = match FileClassifier.run ranges fs rows1 with
    | FileClassifier.Done fs' => FileClassifier.run ranges fs' rows2
    | FileClassifier.Raised e fs' => FileClassifier.Raised e fs'
    end.
Proof. apply run_app. Qed.

Lemma run_adds_only_range_directories_witness :
  NoDup (final_fs (FileClassifier.run two_ranges
                     [("notes.txt", File); ("Alpha Project", Dir [])]
                     [("Alpha_Project", Some (300 # 1)%Q)])).*1 ∧
  ∀ name,
    name ∈ (final_fs (FileClassifier.run two_ranges
                        [("notes.txt", File); ("Alpha Project", Dir [])]
                        [("Alpha_Project", Some (300 # 1)%Q)])).*1 →
    name ∈ [("notes.txt", File); ("Alpha Project", Dir [])].*1
    ∨ name ∈ map dir_name_of two_ranges.
Proof.
  apply (run_adds_only_range_directories two_ranges
           [("notes.txt", File); ("Alpha Project", Dir [])]
           [("Alpha_Project", Some (300 # 1)%Q)]).
  - apply (bool_decide_unpack _). by vm_compute.
  - apply (bool_decide_unpack _). by vm_compute.
Defined.

Lemma run_leaves_files_witness :
  lookup_entry "notes.txt"
    (final_fs (FileClassifier.run two_ranges
                 [("notes.txt", File); ("Alpha Project", Dir [])]
                 [("Alpha_Project", Some (300 # 1)%Q)]))
  = Some File.
Proof.
  apply (run_leaves_files two_ranges
           [("notes.txt", File); ("Alpha Project", Dir [])]
           [("Alpha_Project", Some (300 # 1)%Q)] "notes.txt").
  - apply (bool_decide_unpack _). by vm_compute.
  - done.
Defined.

Section weights.
Context (file dir : nat).

Lemma node_weight_Dir children :
  node_weight file dir (Dir children) = dir + weight file dir children.
Proof.
  simpl. f_equal. induction children as [|[name n] children IH]; simpl;
    [done|]. by rewrite IH.
Qed.

Lemma weight_app fs1 fs2 :
  weight file dir (fs1 ++ fs2) = weight file dir fs1 + weight file dir fs2.
Proof.
  unfold weight. induction fs1 as [|en fs1 IH]; simpl; [done|].
  rewrite IH. lia.
Qed.

Lemma weight_remove_entry folder fs n :
  lookup_entry folder fs = Some n →
  weight file dir (remove_entry folder fs) + node_weight file dir n
  = weight file dir fs.
Proof.
  induction fs as [|[name' n'] fs IH]; simpl; [done|].
  case_bool_decide; simpl.
  - intros [= ->]. unfold weight. lia.
  - intros ?%IH. unfold weight in *. lia.
Qed.

Lemma weight_add_child target_dir child fs inside :
  lookup_entry target_dir fs = Some (Dir inside) →
  weight file dir (add_child target_dir child fs)
  = weight file dir fs + node_weight file dir child.2.
Proof.
  induction fs as [|[name' n'] fs IH]; simpl; [done|].
  case_bool_decide; simpl.
  - intros [= ->]. cbn [weight foldr snd].
    rewrite !node_weight_Dir, weight_app. simpl. unfold weight. lia.
  - intros ?%IH. unfold weight in *. lia.
Qed.

Lemma weight_move fs folder target_dir fs' :
  move fs folder target_dir = inl fs' →
  weight file dir fs' = weight file dir fs.
Proof.
  unfold move. case_bool_decide; [by intros [= <-]|].
  destruct (lookup_entry folder fs) as [n|] eqn:Hfolder; [|by intros [= <-]].
  destruct (lookup_entry target_dir fs) as [[|inside]|] eqn:Ht;
    [by intros [= <-]| |by intros [= <-]].
  destruct (lookup_entry folder inside); [done|]. intros [= <-].
  rewrite (weight_add_child _ _ _ inside)
    by (by rewrite lookup_remove_entry_ne).
  simpl. by apply weight_remove_entry.
Qed.

Lemma weight_makedirs fs target_dir fs' :
  makedirs fs target_dir = inl fs' →
  weight file dir fs' = weight file dir fs
  ∨ weight file dir fs' = weight file dir fs + dir.
Proof.
  unfold makedirs.
  destruct (lookup_entry target_dir fs) as [[|?]|]; [done| |];
    intros [= <-]; [by left|right].
  rewrite weight_app. simpl. lia.
Qed.

Lemma weight_run_row ranges fs row :
  ∃ created,
    weight file dir (final_fs (FileClassifier.run_row ranges fs row))
    = weight file dir fs + created * dir.
Proof.
  destruct row as [project_name [project_size|]]; simpl;
    [|exists 0; simpl; lia].
  destruct (FileClassifier.find_project_folder fs project_name)
    as [folder|]; [|exists 0; simpl; lia].
  destruct (FileClassifier.get_target_dir ranges project_size)
    as [target_dir|]; [|exists 0; simpl; lia].
  destruct (makedirs fs target_dir) as [fs'|e] eqn:Hmk;
    [|exists 0; simpl; lia].
  apply weight_makedirs in Hmk.
  destruct (move fs' folder target_dir) as [fs''|e] eqn:Hmove; simpl.
  - apply weight_move in Hmove. rewrite Hmove.
    destruct Hmk as [->| ->]; [exists 0|exists 1]; simpl; lia.
  - destruct Hmk as [->| ->]; [exists 0|exists 1]; simpl; lia.
Qed.

Lemma weight_run ranges fs rows :
  ∃ created,
    weight file dir (final_fs (FileClassifier.run ranges fs rows))
    = weight file dir fs + created * dir.
Proof.
  revert fs. induction rows as [|row rows IH]; intros fs; simpl.
  { exists 0. simpl. lia. }
  destruct (weight_run_row ranges fs row) as [c1 H1].
  destruct (FileClassifier.run_row ranges fs row) as [fs'|e fs']; simpl in *.
  - destruct (IH fs') as [c2 H2]. exists (c1 + c2). lia.
  - by exists c1.
Qed.
End weights.

(** When every label of the ranges is the name of one entry (no path
    syntax), a run, finished or interrupted, loses nothing and copies
    nothing: the base directory holds as many plain files, at any depth,
    after it as before, and at least as many directories. *)
Theorem run_keeps_every_entry ranges fs rows :
  Forall (λ r, plain_name (dir_name_of r)) ranges →
  weight 1 0 (final_fs (FileClassifier.run ranges fs rows)) = weight 1 0 fs ∧
  weight 0 1 fs ≤ weight 0 1 (final_fs (FileClassifier.run ranges fs rows)).
Proof.
  intros _.
  destruct (weight_run 1 0 ranges fs rows) as [c1 H1].
  destruct (weight_run 0 1 ranges fs rows) as [c2 H2]. lia.
Qed.

Lemma run_keeps_every_entry_witness :
  weight 1 0 (final_fs (FileClassifier.run two_ranges
                          [("notes.txt", File);
                           ("Alpha Project", Dir [("plan.txt", File)])]
                          [("Alpha_Project", Some (300 # 1)%Q)]))
  = weight 1 0 [("notes.txt", File);
                ("Alpha Project", Dir [("plan.txt", File)])] ∧
  weight 0 1 [("notes.txt", File);
              ("Alpha Project", Dir [("plan.txt", File)])]
  ≤ weight 0 1 (final_fs (FileClassifier.run two_ranges
                            [("notes.txt", File);
                             ("Alpha Project", Dir [("plan.txt", File)])]
                            [("Alpha_Project", Some (300 # 1)%Q)])).
Proof.
  apply (run_keeps_every_entry two_ranges
           [("notes.txt", File); ("Alpha Project", Dir [("plan.txt", File)])]
           [("Alpha_Project", Some (300 # 1)%Q)]).
  apply (bool_decide_unpack _). by vm_compute.
Defined.

(** * Further properties of the report engine *)

Lemma similarity_bounds a b :
  (0 <= similarity a b)%Q ∧ (similarity a b <= 1)%Q.
Proof.
  destruct (ratio_range (chars a) (chars b)) as (q & Hq & Hrange).
  rewrite similarity_ratio in Hq. by injection Hq as ->.
Qed.

Section report_facts.
Import ReportGenerator.
Implicit Types (projects : list project) (p q : project).

Lemma best_match_loop_filter folder projects best max :
  best_match_loop folder projects best max
  = best_match_loop folder (filter sized projects) best max.
Proof.
  revert best max. induction projects as [|p projects IH];
    intros best max; [done|].
  rewrite filter_cons. destruct (decide (sized p)) as [[s Hs]|Hn].
  - simpl. rewrite Hs. by rewrite !IH.
  - simpl. destruct (size p) as [s|] eqn:Hs; [|apply IH].
    destruct Hn. by exists s.
Qed.

(** The projects whose size is [None] (what [_read_excel_data] stores
    for a row of a sheet without a second column) take no part in the
    choice of the best match. *)
Theorem find_best_match_ignores_unsized folder projects :
  find_best_match folder projects
  = find_best_match folder (filter sized projects).
Proof. apply best_match_loop_filter. Qed.

(** The score [_find_best_match] returns lies in [[0, 1]] and no project
    with a size scores above it; without a project it is 0.0, and with
    one it is the positive score of that project, which is one of the
    projects with a size. *)
Theorem find_best_match_greatest folder projects :
  (0 <= (find_best_match folder projects).2)%Q ∧
  ((find_best_match folder projects).2 <= 1)%Q ∧
  (∀ q, q ∈ projects → sized q →
     (similarity folder (name q) <= (find_best_match folder projects).2)%Q) ∧
  match (find_best_match folder projects).1 with
  | None => (find_best_match folder projects).2 = 0%Q
  | Some p =>
      p ∈ projects ∧ sized p ∧
      (find_best_match folder projects).2 = similarity folder (name p) ∧
      (0 < similarity folder (name p))%Q
  end.
Proof.
  destruct (find_best_match_spec folder projects)
    as [[-> Hnone]|(p & (pre & post & -> & Hp & Hpos & Hpre & Hpost) & ->)];
    simpl.
  - split_and!; [done..| |done].
    intros q Hq Hs. apply Qnot_lt_le. by apply Hnone.
  - destruct (similarity_bounds folder (name p)) as [H0 H1].
    split_and!; [done..| | | | |done].
    + intros q [Hq|[->|Hq]%elem_of_cons]%elem_of_app Hs.
      * by apply Qlt_le_weak, Hpre.
      * apply Qle_refl.
      * by apply Hpost.
    + apply elem_of_app. right. apply list_elem_of_here.
    + done.
    + done.
Qed.
End report_facts.

Section report_rows.
Import ReportGenerator.

Lemma report_get_target_dir_label ranges size :
  get_target_dir ranges size ∈ map dir_name_of ranges
  ∨ get_target_dir ranges size = unclassified.
Proof.
  destruct (get_target_dir_first ranges size)
    as [(pre & r & post & -> & _ & _ & _ & ->)|(_ & _ & ->)]; [left|by right].
  rewrite map_app. apply elem_of_app. right. apply list_elem_of_here.
Qed.

Lemma report_folder_ok ranges projects base_name entry location :
  location = base_name ∨ location ∈ map dir_name_of ranges →
  Forall (row_ok ranges projects base_name)
    (report_folder ranges projects entry location).
Proof.
  intros Hloc. unfold report_folder.
  destruct (find_best_match_spec entry projects)
    as [[-> _]|(p & (pre & post & -> & Hp & Hpos & _) & ->)]; [constructor|].
  constructor; [|constructor]. unfold row_ok. simpl.
  destruct (similarity_bounds entry (name p)) as [_ H1].
  split_and!; [|done..| |done].
  - exists p. split_and!; [|done..].
    apply elem_of_app. right. apply list_elem_of_here.
  - destruct Hp as [s ->]. simpl. apply report_get_target_dir_label.
Qed.

(** Every row of a report names a project of the pool that has a size,
    carries the positive score, at most 1.0, of that project against the
    folder, a category that is a label of the ranges or the label for
    unclassified, and as location the name of the base directory or a
    label of the ranges. *)
Theorem generate_rows_ok ranges projects base_name base_dir :
  Forall (row_ok ranges projects base_name)
    (generate ranges projects base_name base_dir).
Proof.
  rewrite generate_flat_map. apply Forall_flat_map, Forall_forall.
  intros [folder location] Hin. simpl. apply report_folder_ok.
  unfold folders_to_report in Hin.
  apply list_elem_of_In, in_flat_map in Hin as ([entry n] & _ & Hin).
  simpl in Hin. destruct n as [|sub_entries]; [done|].
  case_bool_decide as Hlabel.
  - apply list_elem_of_In, list_elem_of_fmap in Hin as (sub & [= _ ->] & _).
    by right.
  - destruct Hin as [[= _ <-]|[]]. by left.
Qed.

(** The report of a base directory is the report of the entries listed
    first followed by the report of the entries listed after them. *)
Theorem generate_app ranges projects base_name base_dir1 base_dir2 :
  generate ranges projects base_name (base_dir1 ++ base_dir2)
  = generate ranges projects base_name base_dir1
    ++ generate ranges projects base_name base_dir2.
Proof.
  induction base_dir1 as [|[entry n] rest IH]; simpl; [done|].
  destruct n; [done|]. by rewrite IH, app_assoc.
Qed.
End report_rows.

(** * The command behind the classify button *)

Section classify_files_facts.
Import RangeConfigurator FileClassifierApp.

(** Whatever stops [classify_files] before the run starts leaves
    everything as it was: no path chosen, a [ValueError] out of
    [get_ranges], a message collected by [get_ranges], a path that is not
    a file, a base directory that does not exist, or a spreadsheet that
    cannot be read.  With collected messages the message box lists them;
    with the [ValueError] there is no message box. *)
Theorem classify_files_preflight excel_path entries w :
  excel_path = "" ∨ get_ranges entries = None
  ∨ (∃ ranges m errors, get_ranges entries = Some (ranges, m :: errors))
  ∨ excel_is_file w = false ∨ base_dir w = None ∨ sheet w = None →
  (classify_files excel_path entries w).2 = w ∧
  (excel_path ≠ "" → ∀ ranges m errors,
     get_ranges entries = Some (ranges, m :: errors) →
     (classify_files excel_path entries w).1 = InputError (m :: errors)) ∧
  (excel_path ≠ "" → get_ranges entries = None →
   (classify_files excel_path entries w).1 = Uncaught).
Proof.
  intros Hstop. unfold classify_files.
  case_bool_decide as Hpath; [done|].
  destruct (get_ranges entries) as [[ranges [|m errors]]|] eqn:Hget; simpl.
  - split_and!; [|done..].
    destruct Hstop as [?|[?|[(? & ? & ? & ?)|[Hfile|[Hdir|Hsheet]]]]];
      [done..| | |].
    + by rewrite Hfile.
    + rewrite Hdir. by destruct (excel_is_file w).
    + rewrite Hsheet. by destruct (excel_is_file w), (base_dir w).
  - split_and!; [done| |done]. by intros _ ? ? ? [= _ <- <-].
  - done.
Qed.

Lemma classify_files_preflight_witness :
  (classify_files "book.xlsx" [("10", "5", "A"); ("²", "5", "A")]
     (World true (Some clash_dir) (Some []) None true)).2
  = World true (Some clash_dir) (Some []) None true ∧
  ("book.xlsx" ≠ "" → ∀ ranges m errors,
     get_ranges [("10", "5", "A"); ("²", "5", "A")]
     = Some (ranges, m :: errors) →
     (classify_files "book.xlsx" [("10", "5", "A"); ("²", "5", "A")]
        (World true (Some clash_dir) (Some []) None true)).1
     = InputError (m :: errors)) ∧
  ("book.xlsx" ≠ "" →
   get_ranges [("10", "5", "A"); ("²", "5", "A")] = None →
   (classify_files "book.xlsx" [("10", "5", "A"); ("²", "5", "A")]
      (World true (Some clash_dir) (Some []) None true)).1
   = Uncaught).
Proof.
  apply (classify_files_preflight "book.xlsx"
           [("10", "5", "A"); ("²", "5", "A")]
           (World true (Some clash_dir) (Some []) None true)).
  right. left. by vm_compute.
Defined.
End classify_files_facts.

(** * Validated ranges and negative sizes *)

Lemma well_formed_negative r size :
  well_formed r → (size < 0)%Q → in_range r size = false.
Proof.
  destruct r as [[min_size max_size] dir_name]. intros (Hmin & _) Hneg.
  simpl in Hmin. apply not_true_iff_false. intros [Hle _]%in_range_spec.
  apply (Qlt_not_le _ _ Hneg). eapply Qle_trans; [|exact Hle].
  change 0%Q with (inject_Z 0). by rewrite <- Zle_Qle.
Qed.

(** No range that the validator returns holds a negative size: a record
    with a negative size has no target directory in the classify engine
    and is unclassified in the report. *)
Theorem negative_size_has_no_bucket
    (entries : list (string * string * string)) ranges errors (size : Q) :
  RangeConfigurator.get_ranges entries = Some (ranges, errors) →
  (size < 0)%Q →
  FileClassifier.get_target_dir ranges size = None ∧
  ReportGenerator.get_target_dir ranges size = ReportGenerator.unclassified.
Proof.
  intros Hwf%get_ranges_ranges_well_formed Hneg.
  induction Hwf as [|r ranges Hr _ IH]; [done|]. simpl.
  by rewrite (well_formed_negative r size Hr Hneg).
Qed.

Lemma negative_size_has_no_bucket_witness :
  FileClassifier.get_target_dir DEFAULT_RANGES (-5 # 1)%Q = None ∧
  ReportGenerator.get_target_dir DEFAULT_RANGES (-5 # 1)%Q
  = ReportGenerator.unclassified.
Proof.
  apply (negative_size_has_no_bucket create_widgets DEFAULT_RANGES []
           (-5 # 1)%Q).
  - by vm_compute.
  - by vm_compute.
Defined.
